(** * Creative Notes: the note store and the block editor of [src/App.tsx]

    A shallow embedding of the data model ([Block], [Note]), of the note
    store ([loadNotes], [saveNotes], [newNote], [handleAddNote],
    [handleDeleteNote], [handleUpdateNote]) and of the block editor
    ([handleBlockInput], [handleBlockKeyDown], [handleBlockPaste] and the
    autosave effect of [NoteEditor]), followed by the properties of the
    specification that these functions decide. *)

From Stdlib Require Import ZArith NArith QArith Ascii String DecimalN DecimalPos DecimalFacts.
From stdpp Require Import base decidable option numbers list gmap.

Local Open Scope Z_scope.

(** ** JavaScript strings

    A JavaScript string is a sequence of UTF-16 code units; a code unit is
    kept as its number. [lit] turns a literal of the source into its code
    units; the empty string is [[]]. *)

Abbreviation jsstring := (list N).

Definition lit (s : string) : jsstring := N_of_ascii <$> list_ascii_of_string s.

(** ** Exceptions

    A call either returns a value or throws. Only the two errors that the
    modelled code can meet are listed: reading a property of [undefined]
    ([TypeError]) and [JSON.parse] on a text that is not JSON
    ([SyntaxError]). *)

Inductive exn : Type := TypeError | SyntaxError.

Inductive outcome (A : Type) : Type :=
  | Returns (a : A)
  | Throws (e : exn).
Arguments Returns {A} a.
Arguments Throws {A} e.

#[global] Instance outcome_ret : MRet outcome := fun A a => Returns a.
#[global] Instance outcome_bind : MBind outcome := fun A B f m =>
  match m with
  | Returns a => f a
  | Throws e => Throws e
  end.

#[global] Instance outcome_fmap : FMap outcome := fun A B f m =>
  match m with
  | Returns a => Returns (f a)
  | Throws e => Throws e
  end.

(** [try { body } catch { handler }] *)
Definition try_catch {A} (body : outcome A) (handler : outcome A) : outcome A :=
  match body with
  | Returns a => Returns a
  | Throws _ => handler
  end.

(** ** Data model (lines 21-35) *)

Inductive BlockType : Type := text | heading | bulleted_list.

#[global] Instance BlockType_eq_dec : EqDecision BlockType.
Proof. solve_decision. Defined.

Module Block.
Record t : Type := mk { id : jsstring; type : BlockType; content : jsstring }.
End Block.

Module Note.
Record t : Type := mk {
  id : jsstring;
  title : jsstring;
  blocks : list Block.t;
  created : Z;
  updated : Z
}.
End Note.

#[global] Instance Block_eq_dec : EqDecision Block.t.
Proof. solve_decision. Defined.
#[global] Instance Note_eq_dec : EqDecision Note.t.
Proof. solve_decision. Defined.

(** ** JSON values and [JSON.stringify] / [JSON.parse]

    The two built-in functions that [loadNotes] and [saveNotes] call are
    modelled after ECMA-262 (24.5) and ECMA-404. A number is kept as its
    exact decimal value, a rational in lowest terms: this is the value
    JavaScript holds for every integer that a double represents exactly,
    and the timestamps of a note are such integers. An object is kept as
    the list of its members in the order of creation, a later duplicate key
    overwriting the value of the earlier one in place. *)

#[warnings="-register-all"] Inductive json : Type :=
  | JNull
  | JBool (b : bool)
  | JNum (q : Q)
  | JStr (s : jsstring)
  | JArr (items : list json)
  | JObj (members : list (jsstring * json)).

Module JSON.
Local Open Scope N_scope.

(** *** Values of the data model as JavaScript values *)

Definition type_string (ty : BlockType) : jsstring :=
  match ty with
  | text => lit "text"
  | heading => lit "heading"
  | bulleted_list => lit "bulleted-list"
  end.

Definition of_block (b : Block.t) : json :=
  JObj [ (lit "id", JStr (Block.id b));
         (lit "type", JStr (type_string (Block.type b)));
         (lit "content", JStr (Block.content b)) ].

Definition of_blocks (bs : list Block.t) : json := JArr (of_block <$> bs).

Definition of_note (n : Note.t) : json :=
  JObj [ (lit "id", JStr (Note.id n));
         (lit "title", JStr (Note.title n));
         (lit "blocks", of_blocks (Note.blocks n));
         (lit "created", JNum (inject_Z (Note.created n)));
         (lit "updated", JNum (inject_Z (Note.updated n))) ].

Definition of_notes (ns : list Note.t) : json := JArr (of_note <$> ns).

(** *** [JSON.stringify] at the types [Block[]] and [Note[]] *)

Definition hex_digit (n : N) : N := if n <? 10 then 48 + n else 87 + n.

(** [UnicodeEscape]: a backslash, [u] and four lowercase hexadecimal digits *)
Definition unicode_escape (c : N) : list N :=
  [ 92; 117; hex_digit (c / 4096 mod 16); hex_digit (c / 256 mod 16);
    hex_digit (c / 16 mod 16); hex_digit (c mod 16) ].

Definition is_high_surrogate (c : N) : bool := (55296 <=? c) && (c <=? 56319).
Definition is_low_surrogate (c : N) : bool := (56320 <=? c) && (c <=? 57343).

(** [QuoteJSONString] without the enclosing quotes: the short escapes, a
    [UnicodeEscape] for the other control characters and for a surrogate
    that is not part of a pair, the code unit itself otherwise. *)
Fixpoint quote_chars (s : jsstring) : list N :=
  match s with
  | [] => []
  | c :: r =>
    if c =? 8 then 92 :: 98 :: quote_chars r
    else if c =? 9 then 92 :: 116 :: quote_chars r
    else if c =? 10 then 92 :: 110 :: quote_chars r
    else if c =? 12 then 92 :: 102 :: quote_chars r
    else if c =? 13 then 92 :: 114 :: quote_chars r
    else if c =? 34 then 92 :: 34 :: quote_chars r
    else if c =? 92 then 92 :: 92 :: quote_chars r
    else if c <? 32 then unicode_escape c ++ quote_chars r
    else if is_high_surrogate c then
      match r with
      | d :: r' =>
        if is_low_surrogate d then c :: d :: quote_chars r'
        else unicode_escape c ++ quote_chars r
      | [] => unicode_escape c
      end
    else if is_low_surrogate c then unicode_escape c ++ quote_chars r
    else c :: quote_chars r
  end.

Definition quote (s : jsstring) : list N := 34 :: quote_chars s ++ [34].

Fixpoint uint_chars (d : Decimal.uint) : list N :=
  match d with
  | Decimal.Nil => []
  | Decimal.D0 d => 48 :: uint_chars d
  | Decimal.D1 d => 49 :: uint_chars d
  | Decimal.D2 d => 50 :: uint_chars d
  | Decimal.D3 d => 51 :: uint_chars d
  | Decimal.D4 d => 52 :: uint_chars d
  | Decimal.D5 d => 53 :: uint_chars d
  | Decimal.D6 d => 54 :: uint_chars d
  | Decimal.D7 d => 55 :: uint_chars d
  | Decimal.D8 d => 56 :: uint_chars d
  | Decimal.D9 d => 57 :: uint_chars d
  end.

(** [Number::toString] of an integer: its decimal digits, with a minus
    sign when negative (the form JavaScript prints below 10^21). *)
Definition number_to_string (z : Z) : list N :=
  match z with
  | Z0 => [48]
  | Zpos p => uint_chars (Pos.to_uint p)
  | Zneg p => 45 :: uint_chars (Pos.to_uint p)
  end.

Fixpoint join_comma (parts : list (list N)) : list N :=
  match parts with
  | [] => []
  | [p] => p
  | p :: ps => p ++ 44 :: join_comma ps
  end.

Definition stringify_array (parts : list (list N)) : list N :=
  91 :: join_comma parts ++ [93].

Definition stringify_member (key : jsstring) (value : list N) : list N :=
  quote key ++ 58 :: value.

Definition stringify_object (members : list (list N)) : list N :=
  123 :: join_comma members ++ [125].

Definition stringify_block (b : Block.t) : list N :=
  stringify_object
    [ stringify_member (lit "id") (quote (Block.id b));
      stringify_member (lit "type") (quote (type_string (Block.type b)));
      stringify_member (lit "content") (quote (Block.content b)) ].

Definition stringify_blocks (bs : list Block.t) : list N :=
  stringify_array (stringify_block <$> bs).

Definition stringify_note (n : Note.t) : list N :=
  stringify_object
    [ stringify_member (lit "id") (quote (Note.id n));
      stringify_member (lit "title") (quote (Note.title n));
      stringify_member (lit "blocks") (stringify_blocks (Note.blocks n));
      stringify_member (lit "created") (number_to_string (Note.created n));
      stringify_member (lit "updated") (number_to_string (Note.updated n)) ].

(** [JSON.stringify(notes)] for [notes : Note[]] *)
Definition stringify (ns : list Note.t) : list N :=
  stringify_array (stringify_note <$> ns).

(** *** [JSON.parse] *)

Definition is_ws (c : N) : bool := (c =? 32) || (c =? 9) || (c =? 10) || (c =? 13).

Fixpoint skip_ws (s : list N) : list N :=
  match s with
  | c :: r => if is_ws c then skip_ws r else s
  | [] => []
  end.

Definition hex_value (c : N) : option N :=
  if (48 <=? c) && (c <=? 57) then Some (c - 48)
  else if (97 <=? c) && (c <=? 102) then Some (c - 87)
  else if (65 <=? c) && (c <=? 70) then Some (c - 55)
  else None.

Definition hex4 (h1 h2 h3 h4 : N) : option N :=
  a ← hex_value h1; b ← hex_value h2; c ← hex_value h3; d ← hex_value h4;
  Some (4096 * a + 256 * b + 16 * c + d).

(** the character after a backslash, other than [u] *)
Definition unescape (c : N) : option N :=
  if c =? 34 then Some 34
  else if c =? 92 then Some 92
  else if c =? 47 then Some 47
  else if c =? 98 then Some 8
  else if c =? 102 then Some 12
  else if c =? 110 then Some 10
  else if c =? 114 then Some 13
  else if c =? 116 then Some 9
  else None.

(** The characters of a string after its opening quote, up to and
    including the closing quote. *)
Fixpoint parse_chars (s : list N) : option (jsstring * list N) :=
  match s with
  | [] => None
  | c :: r =>
    if c =? 34 then Some ([], r)
    else if c =? 92 then
      match r with
      | [] => None
      | e :: r1 =>
        if e =? 117 then
          match r1 with
          | h1 :: h2 :: h3 :: h4 :: r2 =>
            match hex4 h1 h2 h3 h4, parse_chars r2 with
            | Some u, Some (str, rest) => Some (u :: str, rest)
            | _, _ => None
            end
          | _ => None
          end
        else
          match unescape e, parse_chars r1 with
          | Some u, Some (str, rest) => Some (u :: str, rest)
          | _, _ => None
          end
      end
    else if c <? 32 then None
    else
      match parse_chars r with
      | Some (str, rest) => Some (c :: str, rest)
      | None => None
      end
  end.

Definition digit (c : N) : option (Decimal.uint → Decimal.uint) :=
  if c =? 48 then Some Decimal.D0
  else if c =? 49 then Some Decimal.D1
  else if c =? 50 then Some Decimal.D2
  else if c =? 51 then Some Decimal.D3
  else if c =? 52 then Some Decimal.D4
  else if c =? 53 then Some Decimal.D5
  else if c =? 54 then Some Decimal.D6
  else if c =? 55 then Some Decimal.D7
  else if c =? 56 then Some Decimal.D8
  else if c =? 57 then Some Decimal.D9
  else None.

(** the longest prefix of digits *)
Fixpoint read_digits (s : list N) : Decimal.uint * list N :=
  match s with
  | c :: r =>
    match digit c with
    | Some d => let '(u, rest) := read_digits r in (d u, rest)
    | None => (Decimal.Nil, s)
    end
  | [] => (Decimal.Nil, [])
  end.

(** no digit follows a leading zero *)
Definition int_part_ok (ip : Decimal.uint) : bool :=
  match ip with
  | Decimal.Nil => false
  | Decimal.D0 Decimal.Nil => true
  | Decimal.D0 _ => false
  | _ => true
  end.

Definition read_frac (s : list N) : option (Decimal.uint * list N) :=
  match s with
  | c :: r =>
    if c =? 46 then
      match read_digits r with
      | (Decimal.Nil, _) => None
      | (fp, rest) => Some (fp, rest)
      end
    else Some (Decimal.Nil, s)
  | [] => Some (Decimal.Nil, [])
  end.

Definition read_sign (s : list N) : bool * list N :=
  match s with
  | c :: r => if c =? 45 then (true, r) else if c =? 43 then (false, r) else (false, s)
  | [] => (false, [])
  end.

Definition read_exp (s : list N) : option (Z * list N) :=
  match s with
  | c :: r =>
    if (c =? 101) || (c =? 69) then
      let '(neg, r1) := read_sign r in
      match read_digits r1 with
      | (Decimal.Nil, _) => None
      | (ep, rest) =>
        let e := Z.of_N (N.of_uint ep) in
        Some (if neg then (- e)%Z else e, rest)
      end
    else Some (0%Z, s)
  | [] => Some (0%Z, [])
  end.

(** the number [(-1)^neg * m * 10^e], in lowest terms *)
Definition decimal_value (neg : bool) (m : N) (e : Z) : Q :=
  let z := if neg then (- Z.of_N m)%Z else Z.of_N m in
  if (0 <=? e)%Z then Qmake (z * 10 ^ e)%Z 1
  else Qred (Qmake z (Z.to_pos (10 ^ (- e)))).

Definition read_minus (s : list N) : bool * list N :=
  match s with
  | c :: r => if c =? 45 then (true, r) else (false, s)
  | [] => (false, [])
  end.

Definition parse_number (s : list N) : option (Q * list N) :=
  let '(neg, s1) := read_minus s in
  let '(ip, s2) := read_digits s1 in
  if int_part_ok ip then
    '(fp, s3) ← read_frac s2;
    '(e, s4) ← read_exp s3;
    let k := Decimal.nb_digits fp in
    let m := N.of_uint ip * 10 ^ N.of_nat k + N.of_uint fp in
    Some (decimal_value neg m (e - Z.of_nat k), s4)
  else None.

Fixpoint strip_prefix (p s : list N) : option (list N) :=
  match p, s with
  | [], _ => Some s
  | a :: p', b :: s' => if a =? b then strip_prefix p' s' else None
  | _ :: _, [] => None
  end.

(** What a recursive-descent step answers: a value and the rest of the
    text, a syntax error, or that the recursion bound was reached. *)
Inductive presult (A : Type) : Type :=
  | POk (a : A) (rest : list N)
  | PSyntax
  | PFuel.
Arguments POk {A} a rest.
Arguments PSyntax {A}.
Arguments PFuel {A}.

Definition pmap {A B} (f : A → B) (r : presult A) : presult B :=
  match r with
  | POk a rest => POk (f a) rest
  | PSyntax => PSyntax
  | PFuel => PFuel
  end.

Definition of_option {A} (o : option (A * list N)) : presult A :=
  match o with
  | Some (a, rest) => POk a rest
  | None => PSyntax
  end.

(** [CreateDataProperty] on an object kept as its member list *)
Fixpoint define (k : jsstring) (v : json) (o : list (jsstring * json))
  : list (jsstring * json) :=
  match o with
  | [] => [(k, v)]
  | (k', v') :: o' => if decide (k' = k) then (k, v) :: o' else (k', v') :: define k v o'
  end.

Definition make_object (ms : list (jsstring * json)) : json :=
  JObj (foldl (λ o kv, define kv.1 kv.2 o) [] ms).

(** One step of the recursive descent, given the parsers for what is
    nested: a value ([elements] and [members] parse the inside of an array
    and of an object), the elements of an array up to its bracket, the
    members of an object up to its brace. *)
Definition value_step (elements : list N → presult (list json))
    (members : list N → presult (list (jsstring * json))) (s : list N)
  : presult json :=
  match skip_ws s with
  | [] => PSyntax
  | c :: r =>
    if c =? 34 then pmap JStr (of_option (parse_chars r))
    else if c =? 91 then
      match skip_ws r with
      | d :: r' => if d =? 93 then POk (JArr []) r' else pmap JArr (elements r)
      | [] => PSyntax
      end
    else if c =? 123 then
      match skip_ws r with
      | d :: r' => if d =? 125 then POk (JObj []) r' else pmap make_object (members r)
      | [] => PSyntax
      end
    else if c =? 116 then
      pmap (λ _, JBool true) (of_option (pair () <$> strip_prefix (lit "rue") r))
    else if c =? 102 then
      pmap (λ _, JBool false) (of_option (pair () <$> strip_prefix (lit "alse") r))
    else if c =? 110 then
      pmap (λ _, JNull) (of_option (pair () <$> strip_prefix (lit "ull") r))
    else pmap JNum (of_option (parse_number (c :: r)))
  end.

Definition elements_step (value : list N → presult json)
    (elements : list N → presult (list json)) (s : list N)
  : presult (list json) :=
  match value s with
  | POk v rest =>
    match skip_ws rest with
    | d :: r =>
      if d =? 44 then pmap (cons v) (elements r)
      else if d =? 93 then POk [v] r
      else PSyntax
    | [] => PSyntax
    end
  | PSyntax => PSyntax
  | PFuel => PFuel
  end.

Definition members_step (value : list N → presult json)
    (members : list N → presult (list (jsstring * json))) (s : list N)
  : presult (list (jsstring * json)) :=
  match skip_ws s with
  | c :: r =>
    if c =? 34 then
      match parse_chars r with
      | Some (k, rest) =>
        match skip_ws rest with
        | d :: r1 =>
          if d =? 58 then
            match value r1 with
            | POk v rest1 =>
              match skip_ws rest1 with
              | x :: r2 =>
                if x =? 44 then pmap (cons (k, v)) (members r2)
                else if x =? 125 then POk [(k, v)] r2
                else PSyntax
              | [] => PSyntax
              end
            | PSyntax => PSyntax
            | PFuel => PFuel
            end
          else PSyntax
        | [] => PSyntax
        end
      | None => PSyntax
      end
    else PSyntax
  | [] => PSyntax
  end.

Fixpoint parse_value (fuel : nat) (s : list N) : presult json :=
  match fuel with
  | O => PFuel
  | S f => value_step (parse_elements f) (parse_members f) s
  end
with parse_elements (fuel : nat) (s : list N) : presult (list json) :=
  match fuel with
  | O => PFuel
  | S f => elements_step (parse_value f) (parse_elements f) s
  end
with parse_members (fuel : nat) (s : list N) : presult (list (jsstring * json)) :=
  match fuel with
  | O => PFuel
  | S f => members_step (parse_value f) (parse_members f) s
  end.

(** [JSON.parse(text)]: one value, then only white space. The recursion
    bound is twice the length of the text plus one, which is never
    reached (lemma [JSON_facts.parse_value_live] below). *)
Definition parse (s : list N) : outcome json :=
  match parse_value (S (2 * length s)) s with
  | POk v rest =>
    match skip_ws rest with
    | [] => Returns v
    | _ :: _ => Throws SyntaxError
    end
  | PSyntax | PFuel => Throws SyntaxError
  end.

(** *** Vocabulary of the proofs about the parser *)

(** what may follow the digits of an integer: no digit, point or exponent *)
Definition delimiter (rest : list N) : Prop :=
  match rest with
  | c :: _ => digit c = None ∧ c ≠ 46 ∧ c ≠ 101 ∧ c ≠ 69
  | [] => True
  end.

(** the text after a value inside an array or an object, or the end *)
Definition follows (rest : list N) : Prop :=
  match rest with
  | [] => True
  | c :: _ => c = 44 ∨ c = 93 ∨ c = 125
  end.

(** [text] is read back as [v] with enough fuel, whatever follows, and does
    not start with white space or a closing bracket. *)
Definition parses (text : list N) (v : json) : Prop :=
  (∃ h t, text = h :: t ∧ is_ws h = false ∧ h ≠ 93 ∧ h ≠ 125)
  ∧ ∃ need, ∀ f rest, (need ≤ f)%nat → follows rest →
      parse_value f (text ++ rest) = POk v rest.

(** A parser [shrinks] when what it leaves is not longer than what it was
    given. *)
Definition shrinks {A} (p : list N → presult A) : Prop :=
  ∀ s a r, p s = POk a r → (length r ≤ length s)%nat.

(** [q] refines [p] when it answers as [p] wherever [p] does not run out
    of fuel. *)
Definition refines {A} (p q : list N → presult A) : Prop :=
  ∀ s, p s ≠ PFuel → q s = p s.

(** a member of an object: its key, the text of its value, its value *)
Definition member_text (m : jsstring * list N * json) : list N :=
  stringify_member m.1.1 m.1.2.
Definition member_value (m : jsstring * list N * json) : jsstring * json :=
  (m.1.1, m.2).
End JSON.

(** ** Local storage (lines 37-51) *)

Definition LS_KEY : jsstring := lit "notion-inspired-notes-v1".

Abbreviation Storage := (gmap (list N) (list N)).

Definition getItem (key : jsstring) (ls : Storage) : option jsstring := ls !! key.
Definition setItem (key : jsstring) (value : jsstring) (ls : Storage) : Storage :=
  <[key := value]> ls.

(** [loadNotes] (lines 39-47). [!raw] holds for [null] and for the empty
    string. What [JSON.parse] returns is returned as it is. *)
Definition loadNotes (ls : Storage) : outcome json :=
  try_catch
    (match getItem LS_KEY ls with
     | None => Returns (JArr [])
     | Some raw => if decide (raw = []) then Returns (JArr []) else JSON.parse raw
     end)
    (Returns (JArr [])).

(** [saveNotes] (lines 49-51) *)
Definition saveNotes (notes : list Note.t) (ls : Storage) : Storage :=
  setItem LS_KEY (JSON.stringify notes) ls.

(** A collection is well formed when its values are values of the
    JavaScript types: strings of 16-bit code units, and timestamps that are
    integers a double holds exactly (as [Date.now()] returns). *)
Definition code_units (s : jsstring) : Prop := Forall (λ c, (c < 65536)%N) s.
Definition safe_integer (z : Z) : Prop := - 2 ^ 53 < z < 2 ^ 53.
Definition well_formed_block (b : Block.t) : Prop :=
  code_units (Block.id b) ∧ code_units (Block.content b).
Definition well_formed_note (n : Note.t) : Prop :=
  code_units (Note.id n) ∧ code_units (Note.title n)
  ∧ Forall well_formed_block (Note.blocks n)
  ∧ safe_integer (Note.created n) ∧ safe_integer (Note.updated n).
Definition well_formed (notes : list Note.t) : Prop := Forall well_formed_note notes.

(** ** Arrays

    [l[i]] is [undefined] (here [None]) outside [0 .. length-1], also for a
    negative [i]; [findIndex] answers [-1] when no element satisfies the
    predicate; [find] answers [undefined]. *)

Definition at_index {A} (l : list A) (i : Z) : option A :=
  if decide (0 ≤ i) then l !! Z.to_nat i else None.

Definition findIndex {A} (P : A → Prop) `{∀ x, Decision (P x)} (l : list A) : Z :=
  match list_find P l with
  | Some (i, _) => Z.of_nat i
  | None => -1
  end.

Definition find {A} (P : A → Prop) `{∀ x, Decision (P x)} (l : list A) : option A :=
  snd <$> list_find P l.

(** [o.id] for an array element [o] that may be [undefined]. *)
Definition get_id (o : option Note.t) : outcome jsstring :=
  match o with
  | Some n => Returns (Note.id n)
  | None => Throws TypeError
  end.

(** ** The note store: component [App] (lines 84-125) *)

Module App.
Record state : Type := mk { notes : list Note.t; selectedId : option jsstring }.
End App.

(** [newNote] (lines 53-72). The three results of [Math.random()...] and the
    two readings of [Date.now()] are arguments, in the order of evaluation. *)
Definition newNote (r0 r1 r2 : jsstring) (t0 t1 : Z) : Note.t :=
  {| Note.id := r0;
     Note.title := lit "Untitled";
     Note.blocks :=
       [ {| Block.id := r1; Block.type := heading; Block.content := lit "New Note" |};
         {| Block.id := r2; Block.type := text; Block.content := [] |} ];
     Note.created := t0;
     Note.updated := t1 |}.

(** [selectedNote] (line 101): [notes.find((n) => n.id === selectedId) || null] *)
Definition selectedNote (st : App.state) : option Note.t :=
  find (λ n, Some (Note.id n) = App.selectedId st) (App.notes st).

(** [handleAddNote] (lines 103-107) *)
Definition handleAddNote (r0 r1 r2 : jsstring) (t0 t1 : Z) (st : App.state) : App.state :=
  let n := newNote r0 r1 r2 t0 t1 in
  {| App.notes := n :: App.notes st; App.selectedId := Some (Note.id n) |}.

(** [handleDeleteNote] (lines 109-119). [confirmed] is the answer of
    [window.confirm]. The function throws before it sets any state when it
    reads [.id] of an element that is not there. *)
Definition handleDeleteNote (confirmed : bool) (id : jsstring) (st : App.state)
  : outcome App.state :=
  let notes := App.notes st in
  if negb confirmed then Returns st
  else
    let idx := findIndex (λ n, Note.id n = id) notes in
    nextId ← (if decide (1 < length notes)%nat then
                if decide (idx = 0) then Some <$> get_id (at_index notes 1)
                else Some <$> get_id (at_index notes (idx - 1))
              else Returns None);
    Returns {| App.notes := filter (λ n, Note.id n ≠ id) notes;
               App.selectedId := nextId |}.

(** [{ ...updated, updated: Date.now() }] *)
Definition stamp (now : Z) (updated : Note.t) : Note.t :=
  {| Note.id := Note.id updated;
     Note.title := Note.title updated;
     Note.blocks := Note.blocks updated;
     Note.created := Note.created updated;
     Note.updated := now |}.

(** [handleUpdateNote] (lines 121-125), the updater given to [setNotes];
    [now] is the reading of [Date.now()]. *)
Definition handleUpdateNote (now : Z) (updated : Note.t) (prev : list Note.t)
  : list Note.t :=
  (λ n, if decide (Note.id n = Note.id updated) then stamp now updated else n) <$> prev.


(** ** The block editor: component [NoteEditor] (lines 399-499) *)

Module Editor.
Record state : Type := mk { title : jsstring; blocks : list Block.t }.
End Editor.

Record KeyboardEvent : Type := { key : jsstring; shiftKey : bool }.

Record ClipboardData : Type := { text_plain : jsstring; text_html : jsstring }.

(** [e.clipboardData.getData(format)] *)
Definition getData (format : jsstring) (c : ClipboardData) : jsstring :=
  if decide (format = lit "text/plain") then text_plain c
  else if decide (format = lit "text/html") then text_html c
  else [].

(** [{ ...note, title, blocks }] *)
Definition snapshot (note : Note.t) (title : jsstring) (blocks : list Block.t) : Note.t :=
  {| Note.id := Note.id note;
     Note.title := title;
     Note.blocks := blocks;
     Note.created := Note.created note;
     Note.updated := Note.updated note |}.

(** The autosave effect (lines 404-412): the snapshot given to [onChange],
    if any. *)
Definition autosave (note : Note.t) (title : jsstring) (blocks : list Block.t)
  : option Note.t :=
  if decide (title ≠ Note.title note
             ∨ JSON.stringify_blocks blocks ≠ JSON.stringify_blocks (Note.blocks note))
  then Some (snapshot note title blocks)
  else None.

(** The reset effect (lines 415-418) *)
Definition reset (note : Note.t) : Editor.state :=
  {| Editor.title := Note.title note; Editor.blocks := Note.blocks note |}.

(** [{ ...b, content }] and [{ ...b, type }] *)
Definition with_content (content : jsstring) (b : Block.t) : Block.t :=
  {| Block.id := Block.id b; Block.type := Block.type b; Block.content := content |}.
Definition with_type (type : BlockType) (b : Block.t) : Block.t :=
  {| Block.id := Block.id b; Block.type := type; Block.content := Block.content b |}.

(** [handleBlockInput] (lines 423-430), the updater given to [setBlocks] *)
Definition handleBlockInput (id : jsstring) (content : jsstring) (prev : list Block.t)
  : list Block.t :=
  (λ b, if decide (Block.id b = id) then with_content content b else b) <$> prev.

(** The three updaters that [handleBlockKeyDown] gives to [setBlocks], under
    the names the specification gives them. *)

(** lines 440-449: [idx] is an index of [blocks.map], so [slice(0, idx + 1)]
    and [slice(idx + 1)] are the first [idx + 1] elements and the others *)
Definition newBlock (r : jsstring) : Block.t :=
  {| Block.id := r; Block.type := text; Block.content := [] |}.

Definition insertBlockAfter (idx : nat) (r : jsstring) (prev : list Block.t)
  : list Block.t :=
  take (S idx) prev ++ newBlock r :: drop (S idx) prev.

(** line 461 *)
Definition removeBlock (id : jsstring) (prev : list Block.t) : list Block.t :=
  filter (λ b, Block.id b ≠ id) prev.

(** lines 477-482 *)
Definition next_type (type : BlockType) : BlockType :=
  if decide (type = text) then heading
  else if decide (type = heading) then bulleted_list
  else text.

(** lines 472-486 *)
Definition cycleBlockType (id : jsstring) (prev : list Block.t) : list Block.t :=
  (λ b, if decide (Block.id b = id) then with_type (next_type (Block.type b)) b else b)
    <$> prev.

(** [handleBlockKeyDown] (lines 432-488), as the handler that [renderBlock]
    binds to the block [block] at index [idx] of the rendered [blocks]; [r]
    is the result of [Math.random()...] for a new block. The three [if]s run
    one after the other; each gives an updater to [setBlocks] and may
    schedule a focus. The result is the new block list and the id of the
    block whose focus was requested last, if any. *)
Definition handleBlockKeyDown (e : KeyboardEvent) (idx : nat) (block : Block.t)
    (r : jsstring) (blocks : list Block.t) : list Block.t * option jsstring :=
  let s0 : list Block.t * option jsstring := (blocks, None) in
  let s1 :=
    if decide (key e = lit "Enter" ∧ shiftKey e = false)
    then (insertBlockAfter idx r s0.1, Some (Block.id (newBlock r)))
    else s0 in
  let s2 :=
    if decide (key e = lit "Backspace" ∧ Block.content block = []
               ∧ (1 < length blocks)%nat)
    then (removeBlock (Block.id block) s1.1,
          match at_index blocks (Z.of_nat idx - 1) with
          | Some prevBlock => Some (Block.id prevBlock)
          | None => s1.2
          end)
    else s1 in
  let s3 :=
    if decide (key e = lit "/" ∧ Block.type block = text)
    then (cycleBlockType (Block.id block) s2.1, s2.2)
    else s2 in
  s3.

(** [document.execCommand("insertText", false, text)] on the editable
    element whose text is [inner], with the selection from [sel_start] to
    [sel_end]: the text of the element afterwards. *)
Definition insertText (text : jsstring) (sel_start sel_end : nat) (inner : jsstring)
  : jsstring :=
  take sel_start inner ++ text ++ drop sel_end inner.

(** [handleBlockPaste] (lines 490-499). [execCommand] changes the text of
    the element and so fires its [input] event, which [onInput] (line 527)
    answers with [handleBlockInput(block.id, innerText)]; then line 498
    runs. *)
Definition handleBlockPaste (clipboardData : ClipboardData)
    (sel_start sel_end : nat) (inner : jsstring) (id : jsstring)
    (prev : list Block.t) : list Block.t :=
  let text := getData (lit "text/plain") clipboardData in
  let innerText := insertText text sel_start sel_end inner in
  let prev1 := handleBlockInput id innerText prev in
  handleBlockInput id text prev1.

(** What the user can do in the editor: the events that the rendered
    elements answer (title input, line 607; blocks, lines 527-532). *)
Inductive EditorEvent : Type :=
  | TitleChange (value : jsstring)
  | BlockInput (idx : nat) (innerText : jsstring)
  | BlockKeyDown (idx : nat) (e : KeyboardEvent) (r : jsstring)
  | BlockPaste (idx : nat) (clipboardData : ClipboardData) (sel_start sel_end : nat).

(** One event handled on the editor state. A block handler exists only for
    a rendered block, and is bound to that block and its index. *)
Definition editor_step (ev : EditorEvent) (st : Editor.state) : Editor.state :=
  let blocks := Editor.blocks st in
  match ev with
  | TitleChange value => {| Editor.title := value; Editor.blocks := blocks |}
  | BlockInput idx innerText =>
    match blocks !! idx with
    | Some block =>
      {| Editor.title := Editor.title st;
         Editor.blocks := handleBlockInput (Block.id block) innerText blocks |}
    | None => st
    end
  | BlockKeyDown idx e r =>
    match blocks !! idx with
    | Some block =>
      {| Editor.title := Editor.title st;
         Editor.blocks := (handleBlockKeyDown e idx block r blocks).1 |}
    | None => st
    end
  | BlockPaste idx clipboardData sel_start sel_end =>
    match blocks !! idx with
    | Some block =>
      {| Editor.title := Editor.title st;
         Editor.blocks :=
           handleBlockPaste clipboardData sel_start sel_end (Block.content block)
             (Block.id block) blocks |}
    | None => st
    end
  end.


(** ** Rendering of a block (lines 501-590) *)

(** [content.replace(/\n/g, "<br/>")]: every newline becomes the five code
    units of [<br/>]. *)
Fixpoint replace_newlines (s : jsstring) : jsstring :=
  match s with
  | [] => []
  | c :: r =>
    if decide (c = 10%N) then lit "<br/>" ++ replace_newlines r
    else c :: replace_newlines r
  end.

(** [block.content.replace(/\n/g, "<br/>") || ""] (lines 547, 578, 587),
    the markup given to [dangerouslySetInnerHTML] *)
Definition inner_html (block : Block.t) : jsstring :=
  let html := replace_newlines (Block.content block) in
  if decide (html = []) then [] else html.

(** [lines.join(sep)] *)
Fixpoint join (sep : jsstring) (lines : list jsstring) : jsstring :=
  match lines with
  | [] => []
  | [l] => l
  | l :: ls => l ++ sep ++ join sep ls
  end.

(** ** The application as a whole

    The state that the two components and the storage hold between two
    events: the stored text, the state of [App], and the local state of
    [NoteEditor] when a note is shown. *)

Module UI.
Record session : Type := mk {
  storage : Storage;
  app : App.state;
  editor : option Editor.state
}.
End UI.

(** [useState] of [App] (lines 85-86) *)
Definition initial : App.state := {| App.notes := []; App.selectedId := None |}.

(** The mount effect of [App] (lines 90-94), for the value [n] that
    [loadNotes()] returned, at the type [Note[]] that line 39 declares. *)
Definition mount_effect (n : list Note.t) : outcome App.state :=
  selected ← (if decide (0 < length n)%nat then Some <$> get_id (at_index n 0)
              else Returns None);
  Returns {| App.notes := n; App.selectedId := selected |}.

(** The save effect of [App] (lines 97-99), which runs after the first
    render and after every render with a new [notes] array. *)
Definition save_effect (st : App.state) (ls : Storage) : Storage :=
  saveNotes (App.notes st) ls.

(** The editor after a render of [App] (lines 333-360). [NoteEditor] is
    rendered with the selected note, under the key [selectedNote.id]: it is
    mounted, with the title and the blocks of the note as its state (lines
    400-401), when no editor was there or the key has changed, and it keeps
    its state otherwise. *)
Definition render_editor (before : App.state) (ed : option Editor.state)
    (after : App.state) : option Editor.state :=
  match selectedNote after with
  | None => None
  | Some note =>
    match selectedNote before, ed with
    | Some old, Some e =>
      if decide (Note.id old = Note.id note) then Some e else Some (reset note)
    | _, _ => Some (reset note)
    end
  end.

(** A handler of [App] has left the state [st']; [saved] tells whether it
    called [setNotes], after which the save effect runs. *)
Definition commit (s : UI.session) (st' : App.state) (saved : bool) : UI.session :=
  {| UI.storage := if saved then save_effect st' (UI.storage s) else UI.storage s;
     UI.app := st';
     UI.editor := render_editor (UI.app s) (UI.editor s) st' |}.

(** What the user can do: the "New Note" button (line 197), the delete
    button of the note at index [i] with the answer to the confirmation
    (lines 284-287), a click on the note at index [i] (line 258), and an
    event in the editor, at the time [now]. *)
Inductive UIEvent : Type :=
  | ClickNewNote (r0 r1 r2 : jsstring) (t0 t1 : Z)
  | ClickDelete (i : nat) (confirmed : bool)
  | ClickNote (i : nat)
  | Edit (ev : EditorEvent) (now : Z).

(** One event handled. The buttons of a note exist only for a rendered
    note and are bound to its id. An event of the editor changes its local
    state; the autosave effect then gives the snapshot, if any, to
    [handleUpdateNote] (line 358), and the save effect follows. *)
Definition ui_step (ev : UIEvent) (s : UI.session) : outcome UI.session :=
  let st := UI.app s in
  match ev with
  | ClickNewNote r0 r1 r2 t0 t1 =>
    Returns (commit s (handleAddNote r0 r1 r2 t0 t1 st) true)
  | ClickDelete i confirmed =>
    match App.notes st !! i with
    | Some note =>
      st' ← handleDeleteNote confirmed (Note.id note) st;
      Returns (commit s st' confirmed)
    | None => Returns s
    end
  | ClickNote i =>
    match App.notes st !! i with
    | Some note =>
      Returns (commit s {| App.notes := App.notes st;
                           App.selectedId := Some (Note.id note) |} false)
    | None => Returns s
    end
  | Edit ev now =>
    match UI.editor s, selectedNote st with
    | Some ed, Some note =>
      let ed' := editor_step ev ed in
      match autosave note (Editor.title ed') (Editor.blocks ed') with
      | Some updated =>
        let st' := {| App.notes := handleUpdateNote now updated (App.notes st);
                      App.selectedId := App.selectedId st |} in
        Returns {| UI.storage := save_effect st' (UI.storage s);
                   UI.app := st';
                   UI.editor := Some ed' |}
      | None =>
        Returns {| UI.storage := UI.storage s; UI.app := st; UI.editor := Some ed' |}
      end
    | _, _ => Returns s
    end
  end.

Fixpoint run (evs : list UIEvent) (s : UI.session) : outcome UI.session :=
  match evs with
  | [] => Returns s
  | ev :: evs' => s' ← ui_step ev s; run evs' s'
  end.

(** The start of the application on the storage [ls], for the value [n]
    that [loadNotes()] returned: the first render shows [initial]; the
    mount effect sets the state; the save effect runs with the state of the
    first render, and again after the render with the loaded notes. *)
Definition boot (n : list Note.t) (ls : Storage) : outcome UI.session :=
  st ← mount_effect n;
  Returns {| UI.storage := save_effect st (save_effect initial ls);
             UI.app := st;
             UI.editor := render_editor initial None st |}.

(** The ids that [Math.random()] gives are new: a new note gets an id that
    no note has and two different block ids; a new block gets an id that no
    block of the editor has. *)
Definition fresh (ev : UIEvent) (s : UI.session) : bool :=
  match ev with
  | ClickNewNote r0 r1 r2 _ _ =>
    bool_decide ((r0 ∉ Note.id <$> App.notes (UI.app s)) ∧ r1 ≠ r2)
  | Edit (BlockKeyDown _ _ r) _ =>
    match UI.editor s with
    | Some ed => bool_decide (r ∉ Block.id <$> Editor.blocks ed)
    | None => true
    end
  | _ => true
  end.

(** The clock does not go back: the second reading of a new note is not
    before the first, and an edit is not before the creation of the note
    it changes. *)
Definition timely (ev : UIEvent) (s : UI.session) : bool :=
  match ev with
  | ClickNewNote _ _ _ t0 t1 => bool_decide (t0 ≤ t1)
  | Edit _ now =>
    match selectedNote (UI.app s) with
    | Some note => bool_decide (Note.created note ≤ now)
    | None => true
    end
  | _ => true
  end.

(** [ok] holds of every event of the run, in the state it meets. *)
Fixpoint along (ok : UIEvent → UI.session → bool) (evs : list UIEvent)
    (s : UI.session) : bool :=
  match evs with
  | [] => true
  | ev :: evs' =>
    ok ev s && match ui_step ev s with
               | Returns s' => along ok evs' s'
               | Throws _ => true
               end
  end.

(** Properties of a state of the application *)

Definition unique_ids (st : App.state) : Prop := NoDup (Note.id <$> App.notes st).

(** a note is selected, unless there is none *)
Definition selection_ok (st : App.state) : Prop :=
  match App.selectedId st with
  | None => App.notes st = []
  | Some id => id ∈ Note.id <$> App.notes st
  end.

(** the editor is there when a note is selected, and shows its title and
    blocks *)
Definition mirrors (s : UI.session) : Prop :=
  match selectedNote (UI.app s), UI.editor s with
  | Some note, Some ed =>
    Editor.title ed = Note.title note ∧ Editor.blocks ed = Note.blocks note
  | None, None => True
  | _, _ => False
  end.

(** the storage holds the text of the notes *)
Definition persisted (s : UI.session) : Prop :=
  UI.storage s !! LS_KEY = Some (JSON.stringify (App.notes (UI.app s))).

(** every note has a block, and its block ids are unique *)
Definition blocks_ok (notes : list Note.t) : Prop :=
  Forall (λ n, Note.blocks n ≠ [] ∧ NoDup (Block.id <$> Note.blocks n)) notes.

Definition times_ok (notes : list Note.t) : Prop :=
  Forall (λ n, Note.created n ≤ Note.updated n) notes.

(** ** Example values *)

Definition example_blocks : list Block.t :=
  [ Block.mk (lit "b0") heading (lit "New Note"); Block.mk (lit "b1") text [] ].

Definition example_note (id : jsstring) (t : Z) : Note.t :=
  Note.mk id (lit "Untitled") example_blocks t t.

Definition example_app : App.state :=
  {| App.notes := [ example_note (lit "a") 1700000000000;
                    example_note (lit "b") 1700000000001;
                    example_note (lit "c") 1700000000002 ];
     App.selectedId := Some (lit "b") |}.

Definition example_editor : Editor.state :=
  {| Editor.title := lit "Untitled"; Editor.blocks := example_blocks |}.

Definition example_key (k : jsstring) : KeyboardEvent := {| key := k; shiftKey := false |}.


(** A session that shows [example_app], with its notes stored. *)
Definition example_session : UI.session :=
  {| UI.storage := saveNotes (App.notes example_app) ∅;
     UI.app := example_app;
     UI.editor := Some example_editor |}.

Definition example_events : list UIEvent :=
  [ Edit (TitleChange (lit "Plan")) 1700000000005;
    ClickNewNote (lit "n") (lit "n0") (lit "n1") 1700000000010 1700000000011;
    Edit (BlockInput 0 (lit "Hello")) 1700000000020;
    Edit (BlockKeyDown 0 (example_key (lit "Enter")) (lit "n2")) 1700000000030;
    ClickNote 2;
    Edit (BlockKeyDown 1 (example_key (lit "Backspace")) (lit "n3")) 1700000000040;
    ClickDelete 0 true;
    ClickDelete 5 true ].

(** * Properties *)

(** ** Arrays *)

Section arrays.
Context {A : Type} (P : A → Prop) `{∀ x, Decision (P x)}.

Lemma findIndex_found (l : list A) (i : nat) (x : A) :
  list_find P l = Some (i, x) → findIndex P l = Z.of_nat i.
Proof. unfold findIndex. by intros ->. Qed.

Lemma findIndex_absent (l : list A) :
  Forall (λ x, ¬ P x) l → findIndex P l = -1.
Proof.
  intros Hall. unfold findIndex.
  by rewrite (proj2 (list_find_None P l) Hall).
Qed.

Lemma at_index_nat (l : list A) (i : nat) : at_index l (Z.of_nat i) = l !! i.
Proof.
  unfold at_index. destruct (decide (0 ≤ Z.of_nat i)) as [_|Hneg]; [|lia].
  by rewrite Nat2Z.id.
Qed.

Lemma at_index_negative (l : list A) (i : Z) : i < 0 → at_index l i = None.
Proof. intros Hi. unfold at_index. destruct (decide (0 ≤ i)); [lia|done]. Qed.
End arrays.

Lemma filter_all {A : Type} (P : A → Prop) `{∀ x, Decision (P x)} (l : list A) :
  Forall P l → filter P l = l.
Proof.
  induction 1 as [|x l Hx _ IH]; [done|].
  by rewrite filter_cons_True, IH.
Qed.

(** Removing the elements that carry the key of the element at [i] removes
    that element alone when keys are unique. *)
Lemma filter_key_delete {A K : Type} `{EqDecision K} (f : A → K) (l : list A)
    (i : nat) (x : A) :
  NoDup (f <$> l) → l !! i = Some x →
  filter (λ y, f y ≠ f x) l = delete i l.
Proof.
  revert i. induction l as [|y l IH]; intros i Hnd Hi; [done|].
  rewrite fmap_cons in Hnd. apply NoDup_cons in Hnd as [Hy Hnd].
  destruct i as [|i]; simpl in Hi.
  - injection Hi as ->. rewrite filter_cons_False by (intros Hne; by apply Hne).
    simpl. apply filter_all, Forall_forall. intros z Hz Heq. apply Hy.
    rewrite <- Heq. apply list_elem_of_fmap. eauto.
  - rewrite filter_cons_True.
    + simpl. f_equal. by apply IH.
    + intros Heq. apply Hy. rewrite Heq.
      apply list_elem_of_fmap. exists x. split; [done|].
      by eapply list_elem_of_lookup_2.
Qed.

(** ** The note store *)

Lemma get_id_lookup (l : list Note.t) (i : nat) (m : Note.t) :
  l !! i = Some m → Some <$> get_id (l !! i) = Returns (Some (Note.id m)).
Proof. by intros ->. Qed.

(** C1. A confirmed [handleDeleteNote(id)] for an id of the collection keeps
    exactly the notes with another id, which removes the one note at the
    position [i] of that id when ids are unique, and selects: nothing when
    the collection had one note; the note at index 1 when [i] is 0 and there
    are several notes; the note at [i - 1] otherwise. *)
Theorem handleDeleteNote_present (st : App.state) (id : jsstring) :
  id ∈ Note.id <$> App.notes st →
  ∃ (i : nat) (n : Note.t) (next : option jsstring),
    App.notes st !! i = Some n ∧ Note.id n = id
    ∧ (∀ j m, App.notes st !! j = Some m → (j < i)%nat → Note.id m ≠ id)
    ∧ handleDeleteNote true id st
      = Returns {| App.notes := filter (λ m, Note.id m ≠ id) (App.notes st);
                   App.selectedId := next |}
    ∧ (NoDup (Note.id <$> App.notes st) →
       filter (λ m, Note.id m ≠ id) (App.notes st) = delete i (App.notes st))
    ∧ (length (App.notes st) = 1%nat → next = None)
    ∧ (i = 0%nat → (1 < length (App.notes st))%nat →
       ∃ m, App.notes st !! 1%nat = Some m ∧ next = Some (Note.id m))
    ∧ (i ≠ 0%nat →
       ∃ m, App.notes st !! (i - 1)%nat = Some m ∧ next = Some (Note.id m)).
Proof.
  destruct st as [notes sel]. simpl. intros Hin.
  apply list_elem_of_fmap in Hin as (n0 & Hid0 & Hn0).
  destruct (list_find_elem_of (λ n, Note.id n = id) notes n0 Hn0) as [[i n] Hfind];
    [done|].
  pose proof (findIndex_found _ _ _ _ Hfind) as Hidx.
  apply list_find_Some in Hfind as (Hi & Hn & Hfirst).
  pose proof (lookup_lt_Some _ _ _ Hi) as Hlt.
  assert (Hdel : NoDup (Note.id <$> notes) →
                 filter (λ m, Note.id m ≠ id) notes = delete i notes).
  { intros Hnd. rewrite <- Hn. by apply filter_key_delete. }
  assert (Hbefore : ∀ j m, notes !! j = Some m → (j < i)%nat → Note.id m ≠ id)
    by (intros j m Hj Hji; by eapply Hfirst).
  unfold handleDeleteNote. simpl. rewrite Hidx.
  destruct (decide (1 < length notes)%nat) as [Hmany|Hone].
  - destruct (decide (Z.of_nat i = 0)) as [Hz|Hnz].
    + assert (i = 0%nat) as -> by lia.
      destruct (lookup_lt_is_Some_2 notes 1%nat Hmany) as [m Hm].
      exists 0%nat, n, (Some (Note.id m)).
      change 1 with (Z.of_nat 1). rewrite at_index_nat, (get_id_lookup _ _ _ Hm).
      split_and!; try done; [lia|eauto].
    + assert (i ≠ 0%nat) as Hi0 by lia.
      assert (is_Some (notes !! (i - 1)%nat)) as [m Hm]
        by (apply lookup_lt_is_Some_2; lia).
      exists i, n, (Some (Note.id m)).
      replace (Z.of_nat i - 1) with (Z.of_nat (i - 1)) by lia.
      rewrite at_index_nat, (get_id_lookup _ _ _ Hm).
      split_and!; try done; [lia|eauto].
  - exists i, n, None. split_and!; try done; lia.
Qed.

(** Without confirmation nothing changes. *)
Lemma handleDeleteNote_cancelled (id : jsstring) (st : App.state) :
  handleDeleteNote false id st = Returns st.
Proof. done. Qed.

(** C10. A confirmed [handleDeleteNote(id)] on at least two notes, none of
    which has the id, finds index [-1], reads [notes[-2]], which is
    [undefined], and throws a [TypeError] on its [.id]: the unknown id is
    not ignored. *)
Theorem handleDeleteNote_absent (st : App.state) (id : jsstring) :
  (2 ≤ length (App.notes st))%nat →
  id ∉ Note.id <$> App.notes st →
  findIndex (λ n, Note.id n = id) (App.notes st) = -1
  ∧ at_index (App.notes st) (-1 - 1) = None
  ∧ handleDeleteNote true id st = Throws TypeError.
Proof.
  destruct st as [notes sel]. simpl. intros Hlen Hnot.
  assert (Hidx : findIndex (λ n, Note.id n = id) notes = -1).
  { apply findIndex_absent, Forall_forall. intros n Hn Hid. apply Hnot.
    rewrite <- Hid. apply list_elem_of_fmap. eauto. }
  split; [done|]. split; [by apply at_index_negative|].
  unfold handleDeleteNote. simpl. rewrite Hidx.
  destruct (decide (1 < length notes)%nat); [|lia].
  destruct (decide (-1 = 0)); [lia|].
  by rewrite at_index_negative.
Qed.

(** C8. [handleAddNote] builds a note titled "Untitled" with a heading block
    "New Note" followed by an empty text block, puts it in front of the
    collection, which grows by one, and selects it. *)
Theorem handleAddNote_prepends (r0 r1 r2 : jsstring) (t0 t1 : Z) (st : App.state) :
  let n := newNote r0 r1 r2 t0 t1 in
  let st' := handleAddNote r0 r1 r2 t0 t1 st in
  Note.title n = lit "Untitled"
  ∧ Note.blocks n = [ Block.mk r1 heading (lit "New Note"); Block.mk r2 text [] ]
  ∧ App.notes st' = n :: App.notes st
  ∧ length (App.notes st') = S (length (App.notes st))
  ∧ App.notes st' !! 0%nat = Some n
  ∧ App.selectedId st' = Some (Note.id n)
  ∧ selectedNote st' = Some n.
Proof.
  repeat split. unfold selectedNote, find. simpl.
  by rewrite decide_True.
Qed.

(** [handleUpdateNote] at the position of a note with the id of the
    snapshot, and at the others. *)
Lemma handleUpdateNote_lookup (now : Z) (updated : Note.t) (prev : list Note.t)
    (i : nat) (n : Note.t) :
  prev !! i = Some n →
  handleUpdateNote now updated prev !! i
  = Some (if decide (Note.id n = Note.id updated) then stamp now updated else n).
Proof. intros Hi. unfold handleUpdateNote. by rewrite list_lookup_fmap, Hi. Qed.

(** A snapshot whose id no stored note has changes nothing. *)
Lemma handleUpdateNote_unknown (now : Z) (updated : Note.t) (prev : list Note.t) :
  Note.id updated ∉ Note.id <$> prev → handleUpdateNote now updated prev = prev.
Proof.
  intros Hnot. unfold handleUpdateNote. rewrite <- (list_fmap_id prev) at 2.
  apply list_fmap_ext. intros i n Hn. rewrite decide_False; [done|].
  intros Hid. apply Hnot. rewrite <- Hid. apply list_elem_of_fmap.
  exists n. split; [done|]. by eapply list_elem_of_lookup_2.
Qed.

(** C2. The editor passes to [handleUpdateNote] the snapshot
    [{ ...note, title, blocks }] of a stored note (lines 404-412). The
    stored note then has the id it had, the title and blocks of the editor,
    [updated] set to the current time and the [created] it had before; the
    notes with another id are left as they are. With the unique ids of the
    data model that stored note is the only one whose id matches the
    snapshot, so every matching note keeps its [created]. *)
Theorem handleUpdateNote_keeps_created (now : Z) (prev : list Note.t) (i : nat)
    (note : Note.t) (title : jsstring) (blocks : list Block.t) (updated : Note.t) :
  prev !! i = Some note →
  autosave note title blocks = Some updated →
  (∃ n', handleUpdateNote now updated prev !! i = Some n'
     ∧ Note.updated n' = now
     ∧ Note.created n' = Note.created note
     ∧ Note.id n' = Note.id note
     ∧ Note.title n' = title ∧ Note.blocks n' = blocks)
  ∧ (∀ j m, prev !! j = Some m → Note.id m ≠ Note.id note →
     handleUpdateNote now updated prev !! j = Some m)
  ∧ (NoDup (Note.id <$> prev) →
     ∀ j m, prev !! j = Some m → Note.id m = Note.id updated →
       ∃ m', handleUpdateNote now updated prev !! j = Some m'
         ∧ Note.updated m' = now
         ∧ Note.created m' = Note.created m).
Proof.
  intros Hi Hsave. unfold autosave in Hsave. case_decide; [|done].
  injection Hsave as <-. split_and!.
  - exists (stamp now (snapshot note title blocks)).
    rewrite (handleUpdateNote_lookup _ _ _ _ _ Hi), decide_True by done. done.
  - intros j m Hj Hne. by rewrite (handleUpdateNote_lookup _ _ _ _ _ Hj), decide_False.
  - intros Hnd j m Hj Hid. exists (stamp now (snapshot note title blocks)).
    rewrite (handleUpdateNote_lookup _ _ _ _ _ Hj), decide_True by done.
    split_and!; [done..|]. simpl.
    assert (j = i) as ->; [|congruence].
    apply (NoDup_lookup (Note.id <$> prev) j i (Note.id note) Hnd);
      rewrite list_lookup_fmap.
    + rewrite Hj. simpl. by rewrite Hid.
    + by rewrite Hi.
Qed.

(** ** The block editor *)

Lemma next_type_cycle :
  next_type text = heading ∧ next_type heading = bulleted_list
  ∧ next_type bulleted_list = text.
Proof. done. Qed.

Lemma next_type_thrice (type : BlockType) :
  next_type (next_type (next_type type)) = type.
Proof. by destruct type. Qed.

Lemma cycleBlockType_lookup (id : jsstring) (prev : list Block.t) (i : nat) (b : Block.t) :
  prev !! i = Some b →
  cycleBlockType id prev !! i
  = Some (if decide (Block.id b = id) then with_type (next_type (Block.type b)) b else b).
Proof. intros Hi. unfold cycleBlockType. by rewrite list_lookup_fmap, Hi. Qed.

Lemma cycleBlockType_thrice (id : jsstring) (prev : list Block.t) :
  cycleBlockType id (cycleBlockType id (cycleBlockType id prev)) = prev.
Proof.
  unfold cycleBlockType. rewrite <- !list_fmap_compose.
  rewrite <- (list_fmap_id prev) at 2. apply list_fmap_ext.
  intros _ [bid ty c] _. simpl.
  destruct (decide (bid = id)) as [Heq|Hne]; simpl;
    destruct (decide (bid = id)); try done; simpl;
    destruct (decide (bid = id)); try done; simpl.
  by rewrite next_type_thrice.
Qed.

(** The keys of the three branches are different strings. *)
Lemma keys_distinct :
  lit "Enter" ≠ lit "Backspace" ∧ lit "Enter" ≠ lit "/" ∧ lit "Backspace" ≠ lit "/".
Proof. done. Qed.

Lemma handleBlockKeyDown_Enter (e : KeyboardEvent) (idx : nat) (block : Block.t)
    (r : jsstring) (blocks : list Block.t) :
  key e = lit "Enter" → shiftKey e = false →
  handleBlockKeyDown e idx block r blocks = (insertBlockAfter idx r blocks, Some r).
Proof.
  intros Hkey Hshift. unfold handleBlockKeyDown. rewrite Hkey, Hshift.
  repeat case_decide; destruct_and?; try done. tauto.
Qed.

Lemma handleBlockKeyDown_Backspace (e : KeyboardEvent) (idx : nat) (block : Block.t)
    (r : jsstring) (blocks : list Block.t) :
  key e = lit "Backspace" →
  (handleBlockKeyDown e idx block r blocks).1
  = if decide (Block.content block = [] ∧ (1 < length blocks)%nat)
    then removeBlock (Block.id block) blocks
    else blocks.
Proof.
  intros Hkey. unfold handleBlockKeyDown. rewrite Hkey.
  repeat case_decide; destruct_and?; try done; tauto.
Qed.

Lemma handleBlockKeyDown_slash (e : KeyboardEvent) (idx : nat) (block : Block.t)
    (r : jsstring) (blocks : list Block.t) :
  key e = lit "/" →
  (handleBlockKeyDown e idx block r blocks).1
  = if decide (Block.type block = text)
    then cycleBlockType (Block.id block) blocks
    else blocks.
Proof.
  intros Hkey. unfold handleBlockKeyDown. rewrite Hkey.
  repeat case_decide; destruct_and?; try done; tauto.
Qed.

Lemma handleBlockKeyDown_length (e : KeyboardEvent) (idx : nat) (block : Block.t)
    (r : jsstring) (blocks : list Block.t) :
  key e ≠ lit "Backspace" →
  (length blocks ≤ length (handleBlockKeyDown e idx block r blocks).1)%nat.
Proof.
  intros Hkey. unfold handleBlockKeyDown.
  rewrite (decide_False (P := key e = lit "Backspace" ∧ _)) by tauto.
  repeat case_decide; simpl; unfold cycleBlockType, insertBlockAfter;
    rewrite ?length_fmap, ?length_app; simpl;
    rewrite ?length_take, ?length_drop; lia.
Qed.

(** The updater of lines 472-486 at a block with the id: the type moves
    one step in the cycle, the id and the content stay. *)
Lemma cycleBlockType_type (id : jsstring) (prev : list Block.t) (i : nat) (b : Block.t) :
  prev !! i = Some b → Block.id b = id →
  ∃ b', cycleBlockType id prev !! i = Some b'
    ∧ Block.type b' = match Block.type b with
                      | text => heading
                      | heading => bulleted_list
                      | bulleted_list => text
                      end
    ∧ Block.id b' = Block.id b ∧ Block.content b' = Block.content b.
Proof.
  intros Hi Hid. eexists.
  rewrite (cycleBlockType_lookup _ _ _ _ Hi), decide_True by done.
  split; [done|]. simpl. by destruct (Block.type b).
Qed.

(** The "/" key on a block that is not a text block changes nothing. *)
Lemma editor_step_slash_other (st : Editor.state) (i : nat) (b : Block.t)
    (e : KeyboardEvent) (r : jsstring) :
  Editor.blocks st !! i = Some b → Block.type b ≠ text → key e = lit "/" →
  editor_step (BlockKeyDown i e r) st = st.
Proof.
  intros Hi Hty Hkey. destruct st as [title blocks]. simpl in *. rewrite Hi.
  by rewrite handleBlockKeyDown_slash, decide_False.
Qed.

(** C5, as stated, fails: the "/" key three times on the text block of
    [example_editor], each time on the block as it then is, leaves a
    heading. The types of the two blocks are heading and heading after
    one, two and three presses, and the block is not back to what it
    was. *)
Lemma slash_thrice_leaves_heading :
  let press := editor_step (BlockKeyDown 1 (example_key (lit "/")) (lit "r")) in
  Block.type <$> Editor.blocks example_editor = [heading; text]
  ∧ Block.type <$> Editor.blocks (press example_editor) = [heading; heading]
  ∧ Block.type <$> Editor.blocks (press (press example_editor)) = [heading; heading]
  ∧ Block.type <$> Editor.blocks (press (press (press example_editor)))
    = [heading; heading]
  ∧ Block.type <$> Editor.blocks (press (press (press example_editor))) !! 1%nat
    ≠ Some text.
Proof. by split_and!. Qed.

(** C5, amended. The updater that the "/" key gives to [setBlocks] moves
    the type of the blocks with the id one step in the cycle text, heading,
    bulleted-list, text, and three applications of it give back the list.
    The key applies it once, and from a text block only (line 468): the
    block at the index becomes a heading, with its id and content, the
    blocks with another id stay; a second and a third press on that block
    change nothing, so after three presses the block is a heading. *)
Theorem slash_key_text_to_heading (st : Editor.state) (i : nat) (b : Block.t)
    (e : KeyboardEvent) (r : jsstring) :
  Editor.blocks st !! i = Some b →
  Block.type b = text →
  key e = lit "/" →
  let press := editor_step (BlockKeyDown i e r) in
  (∃ h, Editor.blocks (press st) !! i = Some h
     ∧ Block.type h = heading
     ∧ Block.id h = Block.id b ∧ Block.content h = Block.content b)
  ∧ Editor.title (press st) = Editor.title st
  ∧ (∀ j c, Editor.blocks st !! j = Some c → Block.id c ≠ Block.id b →
     Editor.blocks (press st) !! j = Some c)
  ∧ press (press st) = press st
  ∧ press (press (press st)) = press st
  ∧ (∀ id prev j c, prev !! j = Some c → Block.id c = id →
     ∃ c', cycleBlockType id prev !! j = Some c'
       ∧ Block.type c' = match Block.type c with
                         | text => heading
                         | heading => bulleted_list
                         | bulleted_list => text
                         end
       ∧ Block.id c' = Block.id c ∧ Block.content c' = Block.content c)
  ∧ (∀ id prev, cycleBlockType id (cycleBlockType id (cycleBlockType id prev)) = prev).
Proof.
  intros Hi Hty Hkey press.
  assert (Hblocks : Editor.blocks (press st) = cycleBlockType (Block.id b) (Editor.blocks st)).
  { unfold press. destruct st as [title blocks]. simpl in *. rewrite Hi. simpl.
    by rewrite handleBlockKeyDown_slash, decide_True. }
  destruct (cycleBlockType_type (Block.id b) _ _ _ Hi eq_refl) as (h & Hh & Hhty & Hhid & Hhc).
  rewrite Hty in Hhty. rewrite <- Hblocks in Hh.
  assert (Hagain : press (press st) = press st).
  { apply (editor_step_slash_other _ i h); [done| |done]. by rewrite Hhty. }
  split_and!.
  - by exists h.
  - unfold press. destruct st as [title blocks]. simpl in *. by rewrite Hi.
  - intros j c Hj Hne. by rewrite Hblocks, (cycleBlockType_lookup _ _ _ _ Hj), decide_False.
  - done.
  - by rewrite !Hagain.
  - intros id prev j c. apply cycleBlockType_type.
  - intros id prev. apply cycleBlockType_thrice.
Qed.

(** C6. Enter without shift on the block at a valid index [idx] puts one new
    block, of type text and with empty content, right after it; the blocks
    before and after keep their order and values. On [A; B] at index 0 the
    result is [A; new; B]. *)
Theorem insertBlockAfter_spec (blocks : list Block.t) (idx : nat) (block : Block.t)
    (e : KeyboardEvent) (r : jsstring) :
  blocks !! idx = Some block →
  key e = lit "Enter" →
  shiftKey e = false →
  let blocks' := (handleBlockKeyDown e idx block r blocks).1 in
  blocks' = take (S idx) blocks ++ Block.mk r text [] :: drop (S idx) blocks
  ∧ length blocks' = S (length blocks)
  ∧ blocks' !! S idx = Some (Block.mk r text [])
  ∧ (∀ j, (j ≤ idx)%nat → blocks' !! j = blocks !! j)
  ∧ (∀ j, (idx < j)%nat → blocks' !! S j = blocks !! j)
  ∧ (∀ A B, blocks = [A; B] → idx = 0%nat → blocks' = [A; Block.mk r text []; B]).
Proof.
  intros Hi Hkey Hshift blocks'.
  pose proof (lookup_lt_Some _ _ _ Hi) as Hlt.
  assert (Heq : blocks' = take (S idx) blocks ++ Block.mk r text [] :: drop (S idx) blocks).
  { unfold blocks'. by rewrite handleBlockKeyDown_Enter. }
  assert (Htake : length (take (S idx) blocks) = S idx)
    by (rewrite length_take; lia).
  split_and!; [done|..].
  - rewrite Heq, length_app, Htake. simpl. rewrite length_drop. lia.
  - rewrite Heq, lookup_app_r by lia. rewrite Htake, Nat.sub_diag. done.
  - intros j Hj. rewrite Heq, lookup_app_l by lia. apply lookup_take_lt. lia.
  - intros j Hj. rewrite Heq, lookup_app_r by lia. rewrite Htake.
    replace (S j - S idx)%nat with (S (j - S idx)) by lia. simpl.
    rewrite lookup_drop. f_equal. lia.
  - intros A B -> ->. by rewrite Heq.
Qed.

Lemma removeBlock_unique (blocks : list Block.t) (idx : nat) (block : Block.t) :
  NoDup (Block.id <$> blocks) → blocks !! idx = Some block →
  removeBlock (Block.id block) blocks = delete idx blocks.
Proof. intros Hnd Hi. by apply filter_key_delete. Qed.

Lemma handleBlockInput_length (id content : jsstring) (prev : list Block.t) :
  length (handleBlockInput id content prev) = length prev.
Proof. unfold handleBlockInput. by rewrite length_fmap. Qed.

Lemma handleBlockInput_ids (id content : jsstring) (prev : list Block.t) :
  Block.id <$> handleBlockInput id content prev = Block.id <$> prev.
Proof.
  unfold handleBlockInput. rewrite <- list_fmap_compose. apply list_fmap_ext.
  intros _ b _. simpl. by case_decide.
Qed.

Lemma cycleBlockType_ids (id : jsstring) (prev : list Block.t) :
  Block.id <$> cycleBlockType id prev = Block.id <$> prev.
Proof.
  unfold cycleBlockType. rewrite <- list_fmap_compose. apply list_fmap_ext.
  intros _ b _. simpl. by case_decide.
Qed.

Lemma removeBlock_ids (id : jsstring) (prev : list Block.t) :
  NoDup (Block.id <$> prev) → NoDup (Block.id <$> removeBlock id prev).
Proof.
  intros Hnd. eapply sublist_NoDup; [exact Hnd|].
  apply fmap_sublist, sublist_filter.
Qed.

Lemma insertBlockAfter_ids (idx : nat) (r : jsstring) (prev : list Block.t) :
  r ∉ Block.id <$> prev → NoDup (Block.id <$> prev) →
  NoDup (Block.id <$> insertBlockAfter idx r prev).
Proof.
  intros Hr Hnd. unfold insertBlockAfter.
  rewrite fmap_app, fmap_cons, <- Permutation_middle, <- fmap_app, take_drop.
  by apply NoDup_cons.
Qed.

(** With a new id that no block has, a key leaves the block ids unique. *)
Lemma handleBlockKeyDown_ids (e : KeyboardEvent) (idx : nat) (block : Block.t)
    (r : jsstring) (blocks : list Block.t) :
  r ∉ Block.id <$> blocks → NoDup (Block.id <$> blocks) →
  NoDup (Block.id <$> (handleBlockKeyDown e idx block r blocks).1).
Proof.
  intros Hr Hnd. unfold handleBlockKeyDown.
  repeat case_decide; destruct_and?; simpl;
    rewrite ?cycleBlockType_ids;
    first [ done
          | by apply removeBlock_ids
          | by apply insertBlockAfter_ids
          | by apply removeBlock_ids, insertBlockAfter_ids ].
Qed.

(** The editor opens on the blocks of the note, and a new note has two. *)
Lemma reset_blocks (note : Note.t) : Editor.blocks (reset note) = Note.blocks note.
Proof. done. Qed.

Lemma newNote_blocks (r0 r1 r2 : jsstring) (t0 t1 : Z) :
  length (Note.blocks (newNote r0 r1 r2 t0 t1)) = 2%nat.
Proof. done. Qed.

(** C7. Backspace on a block removes it when its content is empty and the
    editor shows more than one block, and changes nothing otherwise, so
    nothing when there is exactly one block; with the unique block ids of
    the data model it then removes that block alone, and every event of the
    editor leaves at least one block. The ids stay unique as long as the id
    drawn for a new block is new. *)
Theorem editor_keeps_a_block (ev : EditorEvent) (st : Editor.state) :
  NoDup (Block.id <$> Editor.blocks st) →
  Editor.blocks st ≠ [] →
  Editor.blocks (editor_step ev st) ≠ []
  ∧ ((∀ idx e r, ev = BlockKeyDown idx e r → r ∉ Block.id <$> Editor.blocks st) →
     NoDup (Block.id <$> Editor.blocks (editor_step ev st)))
  ∧ ∀ idx e r block,
      ev = BlockKeyDown idx e r →
      key e = lit "Backspace" →
      Editor.blocks st !! idx = Some block →
      (Block.content block = [] → (1 < length (Editor.blocks st))%nat →
       Editor.blocks (editor_step ev st) = delete idx (Editor.blocks st))
      ∧ (Block.content block ≠ [] →
         Editor.blocks (editor_step ev st) = Editor.blocks st)
      ∧ (length (Editor.blocks st) = 1%nat →
         Editor.blocks (editor_step ev st) = Editor.blocks st).
Proof.
  destruct st as [title blocks]. simpl. intros Hnd Hne.
  assert (Hpos : (0 < length blocks)%nat) by (destruct blocks; [done|simpl; lia]).
  split_and!.
  - intros Hnil. apply (f_equal length) in Hnil. simpl in Hnil. revert Hnil.
    destruct ev as [value|idx innerText|idx e r|idx clip s1 s2]; simpl; [lia|..];
      destruct (blocks !! idx) as [block|] eqn:Hi; simpl; try lia.
    + rewrite handleBlockInput_length. lia.
    + destruct (decide (key e = lit "Backspace")) as [Hkey|Hkey].
      * rewrite handleBlockKeyDown_Backspace by done.
        case_decide as Hrm; [|lia].
        rewrite (removeBlock_unique _ _ _ Hnd Hi), length_delete by eauto. lia.
      * pose proof (handleBlockKeyDown_length e idx block r blocks Hkey). lia.
    + unfold handleBlockPaste. rewrite !handleBlockInput_length. lia.
  - intros Hfresh.
    destruct ev as [value|idx innerText|idx e r|idx clip s1 s2]; simpl; [done|..];
      destruct (blocks !! idx) as [block|] eqn:Hi; simpl; try done.
    + by rewrite handleBlockInput_ids.
    + apply handleBlockKeyDown_ids; [by eapply Hfresh|done].
    + unfold handleBlockPaste. by rewrite !handleBlockInput_ids.
  - intros idx e r block -> Hkey Hi. simpl. rewrite Hi. simpl.
    rewrite handleBlockKeyDown_Backspace by done. split_and!.
    + intros Hc Hl. rewrite decide_True by done. by apply removeBlock_unique.
    + intros Hc. by rewrite decide_False by tauto.
    + intros Hl. rewrite decide_False; [done|lia].
Qed.

(** [handleBlockPaste] leaves in the block the pasted text alone, whatever
    the element held and wherever the caret was. *)
Lemma handleBlockPaste_overwrites (clipboardData : ClipboardData)
    (sel_start sel_end : nat) (inner id : jsstring) (prev : list Block.t) :
  handleBlockPaste clipboardData sel_start sel_end inner id prev
  = handleBlockInput id (text_plain clipboardData) prev.
Proof.
  unfold handleBlockPaste, handleBlockInput. rewrite <- list_fmap_compose.
  apply list_fmap_ext. intros _ [bid ty c] _. simpl.
  destruct (decide (bid = id)) as [Heq|Hne]; simpl;
    destruct (decide (bid = id)); done.
Qed.

(** C9 at a concrete paste: the block holds "abc", the caret is after "a",
    the clipboard holds the plain text "X" (and the HTML "<b>X</b>"). The
    element shows "aXbc" after [execCommand], and the block is left with
    "X". *)
Theorem handleBlockPaste_drops_content :
  let block := Block.mk (lit "b1") text (lit "abc") in
  let clipboardData := {| text_plain := lit "X"; text_html := lit "<b>X</b>" |} in
  insertText (lit "X") 1 1 (Block.content block) = lit "aXbc"
  ∧ handleBlockPaste clipboardData 1 1 (Block.content block) (Block.id block) [block]
    = [Block.mk (lit "b1") text (lit "X")].
Proof. done. Qed.


(** ** [JSON.parse] after [JSON.stringify] *)

Module JSON_facts.
Import JSON.
Local Open Scope N_scope.

(** *** Strings *)

Lemma hex_value_hex_digit (n : N) : n < 16 → hex_value (hex_digit n) = Some n.
Proof.
  intros Hn. destruct n as [|p]; [done|].
  do 5 (destruct p as [p|p|]; try done); lia.
Qed.

Lemma hex_digits_sum (c : N) :
  c < 65536 →
  4096 * (c / 4096 mod 16) + 256 * (c / 256 mod 16) + 16 * (c / 16 mod 16) + c mod 16 = c.
Proof. intros Hc. zify. Z.to_euclidean_division_equations. lia. Qed.

(** A [UnicodeEscape] is read back as its code unit. *)
Lemma hex4_unicode_escape (c : N) (rest : list N) :
  c < 65536 →
  parse_chars (unicode_escape c ++ rest)
  = match parse_chars rest with
    | Some (str, rest') => Some (c :: str, rest')
    | None => None
    end.
Proof.
  intros Hc. unfold unicode_escape.
  assert (Hd : ∀ k, hex_value (hex_digit (c / k mod 16)) = Some (c / k mod 16)).
  { intros k. apply hex_value_hex_digit. apply N.mod_lt. done. }
  assert (H4 : hex4 (hex_digit (c / 4096 mod 16)) (hex_digit (c / 256 mod 16))
                 (hex_digit (c / 16 mod 16)) (hex_digit (c mod 16)) = Some c).
  { assert (Hd0 : hex_value (hex_digit (c mod 16)) = Some (c mod 16))
      by (apply hex_value_hex_digit, N.mod_lt; done).
    unfold hex4. rewrite !Hd, Hd0. simpl. f_equal. by apply hex_digits_sum. }
  cbn [app parse_chars]. change (92 =? 34) with false. change (92 =? 92) with true.
  change (117 =? 117) with true. cbn iota. by rewrite H4.
Qed.

Lemma parse_chars_plain (c : N) (rest : list N) :
  c ≠ 34 → c ≠ 92 → 32 ≤ c →
  parse_chars (c :: rest)
  = match parse_chars rest with
    | Some (str, rest') => Some (c :: str, rest')
    | None => None
    end.
Proof.
  intros H34 H92 H32. cbn [parse_chars].
  rewrite (proj2 (N.eqb_neq c 34)), (proj2 (N.eqb_neq c 92)) by done.
  by rewrite (proj2 (N.ltb_ge c 32)).
Qed.

Lemma surrogate_bound (c : N) :
  is_high_surrogate c = true ∨ is_low_surrogate c = true →
  c < 65536 ∧ c ≠ 34 ∧ c ≠ 92 ∧ 32 ≤ c.
Proof.
  unfold is_high_surrogate, is_low_surrogate.
  rewrite !andb_true_iff, !N.leb_le. lia.
Qed.

(** What [QuoteJSONString] writes is read back as the string: by induction
    on the length, two code units at a time for a surrogate pair. *)
Lemma parse_chars_quote_chars (s : jsstring) (rest : list N) :
  parse_chars (quote_chars s ++ 34 :: rest) = Some (s, rest).
Proof.
  remember (length s) as n eqn:Hn. revert s Hn.
  induction (lt_wf n) as [n _ IH]. intros [|c r] Hn; [done|].
  simpl in Hn.
  assert (IHr : parse_chars (quote_chars r ++ 34 :: rest) = Some (r, rest))
    by (apply (IH (length r)); [lia|done]).
  cbn [quote_chars].
  destruct (c =? 8) eqn:E8; [apply N.eqb_eq in E8 as ->; simpl; by rewrite IHr|].
  destruct (c =? 9) eqn:E9; [apply N.eqb_eq in E9 as ->; simpl; by rewrite IHr|].
  destruct (c =? 10) eqn:E10; [apply N.eqb_eq in E10 as ->; simpl; by rewrite IHr|].
  destruct (c =? 12) eqn:E12; [apply N.eqb_eq in E12 as ->; simpl; by rewrite IHr|].
  destruct (c =? 13) eqn:E13; [apply N.eqb_eq in E13 as ->; simpl; by rewrite IHr|].
  destruct (c =? 34) eqn:E34; [apply N.eqb_eq in E34 as ->; simpl; by rewrite IHr|].
  destruct (c =? 92) eqn:E92; [apply N.eqb_eq in E92 as ->; simpl; by rewrite IHr|].
  apply N.eqb_neq in E34, E92.
  destruct (c <? 32) eqn:E32.
  { apply N.ltb_lt in E32. rewrite <- app_assoc, hex4_unicode_escape by lia.
    by rewrite IHr. }
  apply N.ltb_ge in E32.
  destruct (is_high_surrogate c) eqn:Eh.
  { destruct (surrogate_bound c (or_introl Eh)) as (Hc & _).
    destruct r as [|d r'].
    - rewrite hex4_unicode_escape by done. done.
    - destruct (is_low_surrogate d) eqn:El.
      + destruct (surrogate_bound d (or_intror El)) as (_ & Hd34 & Hd92 & Hd32).
        simpl in Hn. cbn [app]. rewrite !parse_chars_plain by done.
        rewrite (IH (length r')); [done|lia|done].
      + rewrite <- app_assoc, hex4_unicode_escape by done. by rewrite IHr. }
  destruct (is_low_surrogate c) eqn:El.
  { destruct (surrogate_bound c (or_intror El)) as (Hc & _).
    rewrite <- app_assoc, hex4_unicode_escape by done. by rewrite IHr. }
  cbn [app]. rewrite parse_chars_plain by done. by rewrite IHr.
Qed.

(** *** Numbers *)

(** The digits written are the digits read. *)
Lemma read_digits_uint_chars (d : Decimal.uint) (rest : list N) :
  delimiter rest → read_digits (uint_chars d ++ rest) = (d, rest).
Proof.
  intros Hrest.
  induction d as [|d IH|d IH|d IH|d IH|d IH|d IH|d IH|d IH|d IH|d IH];
    cbn [uint_chars app read_digits];
    [|change (digit _) with (Some Decimal.D0)
     |change (digit _) with (Some Decimal.D1)
     |change (digit _) with (Some Decimal.D2)
     |change (digit _) with (Some Decimal.D3)
     |change (digit _) with (Some Decimal.D4)
     |change (digit _) with (Some Decimal.D5)
     |change (digit _) with (Some Decimal.D6)
     |change (digit _) with (Some Decimal.D7)
     |change (digit _) with (Some Decimal.D8)
     |change (digit _) with (Some Decimal.D9)];
    try (by rewrite IH).
  destruct rest as [|c rest]; [done|]. destruct Hrest as [Hc _].
  cbn [read_digits]. by rewrite Hc.
Qed.

Lemma nzhead_not_D0 (d x : Decimal.uint) : Decimal.nzhead d ≠ Decimal.D0 x.
Proof. induction d; simpl; congruence. Qed.

(** The digits of a positive number do not start with a zero. *)
Lemma int_part_ok_to_uint (p : positive) : int_part_ok (Pos.to_uint p) = true.
Proof.
  pose proof (DecimalPos.Unsigned.to_of (Pos.to_uint p)) as Hnorm.
  rewrite DecimalPos.Unsigned.of_to in Hnorm. simpl in Hnorm.
  pose proof (DecimalPos.Unsigned.to_uint_nonzero p) as Hnz.
  pose proof (DecimalPos.Unsigned.to_uint_nonnil p) as Hnn.
  destruct (Pos.to_uint p) as [|d| | | | | | | | | ] eqn:E; try done.
  destruct d; try done; exfalso.
  all: unfold Decimal.unorm in Hnorm; cbn [Decimal.nzhead] in Hnorm.
  all: match type of Hnorm with
       | _ = match ?h with _ => _ end => destruct h eqn:Eh
       end; try discriminate.
  all: by apply nzhead_not_D0 in Eh.
Qed.

Lemma read_minus_uint_chars (d : Decimal.uint) (rest : list N) :
  d ≠ Decimal.Nil →
  read_minus (uint_chars d ++ rest) = (false, uint_chars d ++ rest).
Proof. by destruct d. Qed.

Lemma decimal_value_integer (neg : bool) (m : N) :
  decimal_value neg m 0 = inject_Z (if neg then - Z.of_N m else Z.of_N m)%Z.
Proof. unfold decimal_value, inject_Z. simpl. by rewrite Z.mul_1_r. Qed.

Lemma parse_number_digits (neg : bool) (d : Decimal.uint) (rest : list N) :
  int_part_ok d = true → delimiter rest →
  (let '(ip, s2) := read_digits (uint_chars d ++ rest) in
   if int_part_ok ip then
     '(fp, s3) ← read_frac s2;
     '(e, s4) ← read_exp s3;
     let k := Decimal.nb_digits fp in
     let m := N.of_uint ip * 10 ^ N.of_nat k + N.of_uint fp in
     Some (decimal_value neg m (e - Z.of_nat k), s4)
   else None)
  = Some (inject_Z (if neg then - Z.of_N (N.of_uint d) else Z.of_N (N.of_uint d))%Z, rest).
Proof.
  intros Hok Hrest. rewrite read_digits_uint_chars, Hok by done.
  assert (Hfrac : read_frac rest = Some (Decimal.Nil, rest)).
  { destruct rest as [|c rest]; [done|]. destruct Hrest as (_ & Hc & _).
    unfold read_frac. by rewrite (proj2 (N.eqb_neq c 46)). }
  assert (Hexp : read_exp rest = Some (0%Z, rest)).
  { destruct rest as [|c rest]; [done|]. destruct Hrest as (_ & _ & Hc1 & Hc2).
    unfold read_exp.
    by rewrite (proj2 (N.eqb_neq c 101)), (proj2 (N.eqb_neq c 69)). }
  rewrite Hfrac. simpl. rewrite Hexp. simpl.
  rewrite N.mul_1_r, N.add_0_r. by rewrite decimal_value_integer.
Qed.

(** An integer written in decimal is read back as that integer. *)
Lemma parse_number_integer (z : Z) (rest : list N) :
  delimiter rest →
  parse_number (number_to_string z ++ rest) = Some (inject_Z z, rest).
Proof.
  intros Hrest. unfold parse_number. destruct z as [|p|p]; cbn [number_to_string].
  - by apply (parse_number_digits false (Decimal.D0 Decimal.Nil)).
  - rewrite read_minus_uint_chars by apply DecimalPos.Unsigned.to_uint_nonnil.
    etrans; [by apply (parse_number_digits false); [apply int_part_ok_to_uint|]|].
    unfold N.of_uint. by rewrite DecimalPos.Unsigned.of_to.
  - etrans; [by apply (parse_number_digits true (Pos.to_uint p));
               [apply int_part_ok_to_uint|]|].
    unfold N.of_uint. by rewrite DecimalPos.Unsigned.of_to.
Qed.

Lemma number_to_string_head (z : Z) :
  ∃ h t, number_to_string z = h :: t ∧ (h = 45 ∨ 48 ≤ h ≤ 57).
Proof.
  destruct z as [|p|p]; cbn [number_to_string].
  - exists 48, []. split; [done|lia].
  - pose proof (DecimalPos.Unsigned.to_uint_nonnil p).
    destruct (Pos.to_uint p); [done|..]; cbn [uint_chars]; do 2 eexists;
      (split; [done|lia]).
  - do 2 eexists. split; [done|]. by left.
Qed.

(** *** Lengths *)

Lemma skip_ws_head (c : N) (r : list N) : is_ws c = false → skip_ws (c :: r) = c :: r.
Proof. intros Hc. cbn [skip_ws]. by rewrite Hc. Qed.

Lemma skip_ws_length (s : list N) : (length (skip_ws s) ≤ length s)%nat.
Proof. induction s as [|c r IH]; [done|]. cbn [skip_ws]. case_match; simpl; lia. Qed.

Lemma skip_ws_cons_length (s r : list N) (c : N) :
  skip_ws s = c :: r → (length r < length s)%nat.
Proof. intros Hs. pose proof (skip_ws_length s) as Hl. rewrite Hs in Hl. simpl in Hl. lia. Qed.

Lemma parse_chars_length (s : list N) (str rest : list N) :
  parse_chars s = Some (str, rest) → (length rest < length s)%nat.
Proof.
  remember (length s) as n eqn:Hn. revert s str rest Hn.
  induction (lt_wf n) as [n _ IH]. intros [|c r] str rest Hn; [done|].
  simpl in Hn. cbn [parse_chars]. intros Hp.
  repeat case_match; simplify_eq; simpl in *;
    try match goal with
        | H : parse_chars ?x = Some (_, ?y) |- _ =>
          apply (IH (length x)) in H; [|lia|done]
        end; lia.
Qed.

Lemma read_digits_length (s : list N) : (length (read_digits s).2 ≤ length s)%nat.
Proof.
  induction s as [|c r IH]; [done|]. cbn [read_digits].
  destruct (digit c); [|done]. destruct (read_digits r). simpl in *. lia.
Qed.

Lemma strip_prefix_length (p s rest : list N) :
  strip_prefix p s = Some rest → (length rest ≤ length s)%nat.
Proof.
  revert s. induction p as [|a p IH]; intros s; cbn [strip_prefix].
  - by intros [= ->].
  - destruct s as [|b s]; [done|]. case_match; [|done].
    intros Hs%IH. simpl. lia.
Qed.

Lemma read_digits_rest (s : list N) (d : Decimal.uint) (rest : list N) :
  read_digits s = (d, rest) → (length rest ≤ length s)%nat.
Proof. intros Hd. pose proof (read_digits_length s) as Hl. by rewrite Hd in Hl. Qed.

Lemma read_minus_length (s : list N) : (length (read_minus s).2 ≤ length s)%nat.
Proof. destruct s as [|c r]; [done|]. unfold read_minus. case_match; simpl; lia. Qed.

Lemma read_sign_length (s : list N) : (length (read_sign s).2 ≤ length s)%nat.
Proof. destruct s as [|c r]; [done|]. unfold read_sign. repeat case_match; simpl; lia. Qed.

Lemma read_frac_length (s : list N) (d : Decimal.uint) (rest : list N) :
  read_frac s = Some (d, rest) → (length rest ≤ length s)%nat.
Proof.
  destruct s as [|c r]; [by intros [= _ <-]|]. unfold read_frac.
  destruct (c =? 46); [|by intros [= _ <-]].
  destruct (read_digits r) as [fp s3] eqn:Hd. apply read_digits_rest in Hd.
  destruct fp; intros [= _ <-]; simpl; lia.
Qed.

Lemma read_exp_length (s : list N) (e : Z) (rest : list N) :
  read_exp s = Some (e, rest) → (length rest ≤ length s)%nat.
Proof.
  destruct s as [|c r]; [by intros [= _ <-]|]. unfold read_exp.
  destruct ((c =? 101) || (c =? 69)); [|by intros [= _ <-]].
  pose proof (read_sign_length r) as Hs.
  destruct (read_sign r) as [neg r1]. simpl in Hs.
  destruct (read_digits r1) as [ep s4] eqn:Hd. apply read_digits_rest in Hd.
  destruct ep; intros [= _ <-]; simpl; lia.
Qed.

Lemma parse_number_length (s : list N) (q : Q) (rest : list N) :
  parse_number s = Some (q, rest) → (length rest ≤ length s)%nat.
Proof.
  unfold parse_number. pose proof (read_minus_length s) as Hm.
  destruct (read_minus s) as [neg s1]. simpl in Hm.
  destruct (read_digits s1) as [ip s2] eqn:Hd. apply read_digits_rest in Hd.
  destruct (int_part_ok ip); [|done].
  destruct (read_frac s2) as [[fp s3]|] eqn:Hf; [|done]. apply read_frac_length in Hf.
  simpl. destruct (read_exp s3) as [[e s4]|] eqn:He; [|done]. apply read_exp_length in He.
  simpl. intros [= _ <-]. lia.
Qed.

(** *** Results of the steps *)

Lemma pmap_ok {A B} (g : A → B) (x : presult A) (b : B) (r : list N) :
  pmap g x = POk b r → ∃ a, x = POk a r ∧ b = g a.
Proof. destruct x; [|done..]. intros [= <- <-]. eauto. Qed.

Lemma pmap_not_fuel {A B} (g : A → B) (x : presult A) :
  pmap g x ≠ PFuel ↔ x ≠ PFuel.
Proof. by destruct x. Qed.

Lemma of_option_ok {A} (o : option (A * list N)) (a : A) (r : list N) :
  of_option o = POk a r → o = Some (a, r).
Proof. destruct o as [[a' r']|]; [|done]. by intros [= <- <-]. Qed.

Lemma of_option_not_fuel {A} (o : option (A * list N)) : of_option o ≠ PFuel.
Proof. by destruct o as [[a' r']|]. Qed.

Lemma value_step_shrinks elements members :
  shrinks elements → shrinks members → shrinks (value_step elements members).
Proof.
  intros He Hm s a rest. unfold value_step.
  destruct (skip_ws s) as [|c r] eqn:Hs; [done|]. apply skip_ws_cons_length in Hs.
  destruct (c =? 34).
  { intros (str & Hp%of_option_ok%parse_chars_length & _)%pmap_ok. lia. }
  destruct (c =? 91).
  { destruct (skip_ws r) as [|d r'] eqn:Hr; [done|]. apply skip_ws_cons_length in Hr.
    destruct (d =? 93); [intros [= _ <-]; lia|].
    intros (vs & Hp%He & _)%pmap_ok. lia. }
  destruct (c =? 123).
  { destruct (skip_ws r) as [|d r'] eqn:Hr; [done|]. apply skip_ws_cons_length in Hr.
    destruct (d =? 125); [intros [= _ <-]; lia|].
    intros (vs & Hp%Hm & _)%pmap_ok. lia. }
  assert (Hlit : ∀ (v : json) (p : list N),
    pmap (λ _, v) (of_option (pair () <$> strip_prefix p r)) = POk a rest →
    (length rest ≤ length s)%nat).
  { intros v p (u & Hp%of_option_ok & _)%pmap_ok.
    destruct (strip_prefix p r) as [rest'|] eqn:Hsp; [|done].
    apply strip_prefix_length in Hsp. injection Hp as _ <-. lia. }
  destruct (c =? 116); [by apply Hlit|].
  destruct (c =? 102); [by apply Hlit|].
  destruct (c =? 110); [by apply Hlit|].
  intros (q & Hp%of_option_ok%parse_number_length & _)%pmap_ok. simpl in Hp. lia.
Qed.

Lemma elements_step_shrinks value elements :
  shrinks value → shrinks elements → shrinks (elements_step value elements).
Proof.
  intros Hv He s a rest. unfold elements_step.
  destruct (value s) as [v rest1| |] eqn:Hval; [|done..]. apply Hv in Hval.
  destruct (skip_ws rest1) as [|d r] eqn:Hr; [done|]. apply skip_ws_cons_length in Hr.
  destruct (d =? 44); [intros (vs & Hp%He & _)%pmap_ok; lia|].
  destruct (d =? 93); [|done]. intros [= _ <-]. lia.
Qed.

Lemma members_step_shrinks value members :
  shrinks value → shrinks members → shrinks (members_step value members).
Proof.
  intros Hv Hm s a rest. unfold members_step.
  destruct (skip_ws s) as [|c r] eqn:Hs; [done|]. apply skip_ws_cons_length in Hs.
  destruct (c =? 34); [|done].
  destruct (parse_chars r) as [[k rest0]|] eqn:Hk; [|done]. apply parse_chars_length in Hk.
  destruct (skip_ws rest0) as [|d r1] eqn:Hr1; [done|]. apply skip_ws_cons_length in Hr1.
  destruct (d =? 58); [|done].
  destruct (value r1) as [v rest1| |] eqn:Hval; [|done..]. apply Hv in Hval.
  destruct (skip_ws rest1) as [|x r2] eqn:Hr2; [done|]. apply skip_ws_cons_length in Hr2.
  destruct (x =? 44); [intros (vs & Hp%Hm & _)%pmap_ok; lia|].
  destruct (x =? 125); [|done]. intros [= _ <-]. lia.
Qed.

(** The three parsers leave no more than they were given. *)
Lemma parse_shrinks (fuel : nat) :
  shrinks (parse_value fuel) ∧ shrinks (parse_elements fuel)
  ∧ shrinks (parse_members fuel).
Proof.
  induction fuel as [|f (IHv & IHe & IHm)]; [by split_and!|].
  split_and!; cbn [parse_value parse_elements parse_members].
  - by apply value_step_shrinks.
  - by apply elements_step_shrinks.
  - by apply members_step_shrinks.
Qed.

(** *** The recursion bound is never reached *)

Lemma value_step_live elements members (s : list N) :
  (∀ r, (length r < length s)%nat → elements r ≠ PFuel) →
  (∀ r, (length r < length s)%nat → members r ≠ PFuel) →
  value_step elements members s ≠ PFuel.
Proof.
  intros He Hm. unfold value_step.
  destruct (skip_ws s) as [|c r] eqn:Hs; [done|]. apply skip_ws_cons_length in Hs.
  destruct (c =? 34); [apply pmap_not_fuel, of_option_not_fuel|].
  destruct (c =? 91).
  { destruct (skip_ws r) as [|d r']; [done|]. destruct (d =? 93); [done|].
    by apply pmap_not_fuel, He. }
  destruct (c =? 123).
  { destruct (skip_ws r) as [|d r']; [done|]. destruct (d =? 125); [done|].
    by apply pmap_not_fuel, Hm. }
  repeat (case_match; [apply pmap_not_fuel, of_option_not_fuel|]).
  apply pmap_not_fuel, of_option_not_fuel.
Qed.

Lemma elements_step_live value elements (s : list N) :
  shrinks value →
  value s ≠ PFuel →
  (∀ r, (length r < length s)%nat → elements r ≠ PFuel) →
  elements_step value elements s ≠ PFuel.
Proof.
  intros Hsh Hv He. unfold elements_step.
  destruct (value s) as [v rest1| |] eqn:Hval; [|done..]. apply Hsh in Hval.
  destruct (skip_ws rest1) as [|d r] eqn:Hr; [done|]. apply skip_ws_cons_length in Hr.
  destruct (d =? 44); [apply pmap_not_fuel, He; lia|]. by destruct (d =? 93).
Qed.

Lemma members_step_live value members (s : list N) :
  shrinks value →
  (∀ r, (length r < length s)%nat → value r ≠ PFuel) →
  (∀ r, (length r < length s)%nat → members r ≠ PFuel) →
  members_step value members s ≠ PFuel.
Proof.
  intros Hsh Hv Hm. unfold members_step.
  destruct (skip_ws s) as [|c r] eqn:Hs; [done|]. apply skip_ws_cons_length in Hs.
  destruct (c =? 34); [|done].
  destruct (parse_chars r) as [[k rest0]|] eqn:Hk; [|done]. apply parse_chars_length in Hk.
  destruct (skip_ws rest0) as [|d r1] eqn:Hr1; [done|]. apply skip_ws_cons_length in Hr1.
  destruct (d =? 58); [|done].
  assert (Hlive : value r1 ≠ PFuel) by (apply Hv; lia).
  destruct (value r1) as [v rest1| |] eqn:Hval; [|done..]. apply Hsh in Hval.
  destruct (skip_ws rest1) as [|x r2] eqn:Hr2; [done|]. apply skip_ws_cons_length in Hr2.
  destruct (x =? 44); [apply pmap_not_fuel, Hm; lia|]. by destruct (x =? 125).
Qed.

(** Fuel above twice the length of the text is enough: every nested call
    comes after at least one consumed character. *)
Lemma parse_live (fuel : nat) :
  (∀ s, (2 * length s < fuel)%nat → parse_value fuel s ≠ PFuel)
  ∧ (∀ s, (2 * length s + 1 < fuel)%nat → parse_elements fuel s ≠ PFuel)
  ∧ (∀ s, (2 * length s < fuel)%nat → parse_members fuel s ≠ PFuel).
Proof.
  induction fuel as [|f (IHv & IHe & IHm)]; [split_and!; intros; lia|].
  destruct (parse_shrinks f) as (Hsh & _ & _).
  split_and!; intros s Hs; cbn [parse_value parse_elements parse_members].
  - apply value_step_live; intros r Hr; [apply IHe|apply IHm]; lia.
  - apply elements_step_live; [done|apply IHv; lia|]. intros r Hr. apply IHe. lia.
  - apply members_step_live; [done|..]; intros r Hr; [apply IHv|apply IHm]; lia.
Qed.

(** [JSON.parse] never stops for want of fuel. *)
Lemma parse_value_live (s : list N) : parse_value (S (2 * length s)) s ≠ PFuel.
Proof. apply parse_live. lia. Qed.

(** *** More fuel changes no answer *)

Lemma value_step_refines e e' m m' :
  refines e e' → refines m m' → refines (value_step e m) (value_step e' m').
Proof.
  intros He Hm s. unfold value_step.
  destruct (skip_ws s) as [|c r]; [done|].
  destruct (c =? 34); [done|].
  destruct (c =? 91).
  { destruct (skip_ws r) as [|d r']; [done|]. destruct (d =? 93); [done|].
    intros Hl%pmap_not_fuel. by rewrite He. }
  destruct (c =? 123); [|done].
  destruct (skip_ws r) as [|d r']; [done|]. destruct (d =? 125); [done|].
  intros Hl%pmap_not_fuel. by rewrite Hm.
Qed.

Lemma elements_step_refines v v' e e' :
  refines v v' → refines e e' → refines (elements_step v e) (elements_step v' e').
Proof.
  intros Hv He s. unfold elements_step. intros Hl.
  assert (Hvs : v s ≠ PFuel) by (intros Hf; by rewrite Hf in Hl).
  rewrite (Hv s Hvs). destruct (v s) as [x rest| |]; [|done..].
  destruct (skip_ws rest) as [|d r]; [done|].
  destruct (d =? 44); [|done]. apply pmap_not_fuel in Hl. by rewrite He.
Qed.

Lemma members_step_refines v v' m m' :
  refines v v' → refines m m' → refines (members_step v m) (members_step v' m').
Proof.
  intros Hv Hm s. unfold members_step.
  destruct (skip_ws s) as [|c r]; [done|].
  destruct (c =? 34); [|done].
  destruct (parse_chars r) as [[k rest0]|]; [|done].
  destruct (skip_ws rest0) as [|d r1]; [done|].
  destruct (d =? 58); [|done]. intros Hl.
  assert (Hvs : v r1 ≠ PFuel) by (intros Hf; by rewrite Hf in Hl).
  rewrite (Hv r1 Hvs). destruct (v r1) as [x rest1| |]; [|done..].
  destruct (skip_ws rest1) as [|y r2]; [done|].
  destruct (y =? 44); [|done]. apply pmap_not_fuel in Hl. by rewrite Hm.
Qed.

(** One more unit of fuel keeps every answer that is not [PFuel]. *)
Lemma parse_refines_S (fuel : nat) :
  refines (parse_value fuel) (parse_value (S fuel))
  ∧ refines (parse_elements fuel) (parse_elements (S fuel))
  ∧ refines (parse_members fuel) (parse_members (S fuel)).
Proof.
  induction fuel as [|f (IHv & IHe & IHm)];
    [split_and!; intros s Hs; exfalso; by apply Hs|].
  split_and!.
  - by apply value_step_refines.
  - by apply elements_step_refines.
  - by apply members_step_refines.
Qed.

Lemma parse_value_more_fuel (f f' : nat) (s : list N) :
  (f ≤ f')%nat → parse_value f s ≠ PFuel → parse_value f' s = parse_value f s.
Proof.
  induction 1 as [|f' _ IH]; [done|]. intros Hl.
  destruct (parse_refines_S f') as (Hv & _).
  specialize (IH Hl). rewrite Hv; [done|]. by rewrite IH.
Qed.

(** An answer found with some fuel is the answer of [JSON.parse]. *)
Lemma parse_with_fuel (f : nat) (s : list N) (v : json) :
  parse_value f s = POk v [] → parse s = Returns v.
Proof.
  intros Hf. unfold parse.
  pose proof (parse_value_live s) as Hlive.
  assert (Heq : parse_value (f `max` S (2 * length s)) s = POk v []).
  { rewrite <- Hf. apply parse_value_more_fuel; [lia|]. by rewrite Hf. }
  rewrite (parse_value_more_fuel (S (2 * length s))) in Heq by (done || lia).
  by rewrite Heq.
Qed.

(** *** What [stringify] writes, [parse_value] reads *)

Lemma follows_delimiter (rest : list N) : follows rest → delimiter rest.
Proof. destruct rest as [|c rest]; [done|]. by intros [->|[->| ->]]. Qed.

Lemma follows_skip_ws (rest : list N) : follows rest → skip_ws rest = rest.
Proof. destruct rest as [|c rest]; [done|]. by intros [->|[->| ->]]. Qed.

Lemma parses_string (s : jsstring) : parses (quote s) (JStr s).
Proof.
  split; [by exists 34, (quote_chars s ++ [34])|].
  exists 1%nat. intros [|f] rest Hf _; [lia|].
  unfold quote. cbn [parse_value app]. rewrite <- app_assoc. cbn [app].
  unfold value_step. rewrite skip_ws_head by done.
  change (34 =? 34) with true. cbn iota. by rewrite parse_chars_quote_chars.
Qed.

Lemma value_step_number elements members (h : N) (t : list N) :
  h = 45 ∨ 48 ≤ h ≤ 57 →
  value_step elements members (h :: t) = pmap JNum (of_option (parse_number (h :: t))).
Proof.
  intros Hh. unfold value_step.
  assert (Hws : is_ws h = false).
  { unfold is_ws. rewrite !orb_false_iff, !N.eqb_neq. lia. }
  rewrite skip_ws_head by done.
  by rewrite !(proj2 (N.eqb_neq h _)) by lia.
Qed.

Lemma parses_number (z : Z) : parses (number_to_string z) (JNum (inject_Z z)).
Proof.
  destruct (number_to_string_head z) as (h & t & Hz & Hh). split.
  { exists h, t. split; [done|]. unfold is_ws.
    rewrite !orb_false_iff, !N.eqb_neq. lia. }
  exists 1%nat. intros [|f] rest Hf Hrest%follows_delimiter; [lia|].
  cbn [parse_value]. rewrite Hz. cbn [app]. rewrite value_step_number by done.
  change (h :: t ++ rest) with ((h :: t) ++ rest). rewrite <- Hz.
  by rewrite parse_number_integer.
Qed.

(** The elements of an array, written with commas and a closing bracket. *)
Lemma parse_elements_items (items : list (list N * json)) :
  items ≠ [] →
  Forall (λ x, parses x.1 x.2) items →
  ∃ need, ∀ f rest, (need ≤ f)%nat →
    parse_elements f (join_comma (fst <$> items) ++ 93 :: rest)
    = POk (snd <$> items) rest.
Proof.
  induction items as [|[t v] items IH]; [done|]. intros _ Hall.
  apply Forall_cons in Hall as [[_ [need Hv]] Hall]. simpl in Hv.
  destruct items as [|y items].
  - exists (S need). intros [|f] rest Hf; [lia|].
    cbn [fmap list_fmap join_comma fst snd parse_elements]. unfold elements_step.
    rewrite Hv by (lia || by right; left). by rewrite skip_ws_head.
  - destruct IH as [need' IH]; [done..|].
    exists (S (need `max` need')). intros [|f] rest Hf; [lia|].
    rewrite !fmap_cons. cbn [join_comma fst snd parse_elements].
    rewrite <- app_assoc. cbn [app]. unfold elements_step.
    rewrite Hv by (lia || by left). rewrite skip_ws_head by done.
    change (44 =? 44) with true. cbn iota.
    rewrite <- !fmap_cons, IH by lia. done.
Qed.

Lemma parses_array (items : list (list N * json)) :
  Forall (λ x, parses x.1 x.2) items →
  parses (stringify_array (fst <$> items)) (JArr (snd <$> items)).
Proof.
  intros Hall. split; [by eexists 91, _|].
  destruct items as [|[t v] items].
  - exists 1%nat. by intros [|f] rest Hf _; [lia|].
  - destruct (parse_elements_items ((t, v) :: items)) as [need Hitems]; [done..|].
    apply Forall_cons in Hall as [[Hhead _] _]. simpl in Hhead.
    destruct Hhead as (h & t' & Ht & Hws & H93 & _).
    exists (S need). intros [|f] rest Hf _; [lia|].
    unfold stringify_array. cbn [parse_value app]. rewrite <- app_assoc. cbn [app].
    unfold value_step. rewrite skip_ws_head by done.
    change (91 =? 34) with false. change (91 =? 91) with true. cbn iota.
    rewrite Hitems by lia. rewrite fmap_cons. cbn [fst]. rewrite Ht.
    destruct (fst <$> items); cbn [join_comma app]; rewrite skip_ws_head by done;
      by rewrite (proj2 (N.eqb_neq h 93)).
Qed.

Lemma members_step_member value members (k : jsstring) (rest : list N) :
  members_step value members (quote k ++ 58 :: rest)
  = match value rest with
    | POk v rest1 =>
      match skip_ws rest1 with
      | x :: r2 =>
        if x =? 44 then pmap (cons (k, v)) (members r2)
        else if x =? 125 then POk [(k, v)] r2
        else PSyntax
      | [] => PSyntax
      end
    | PSyntax => PSyntax
    | PFuel => PFuel
    end.
Proof.
  unfold members_step, quote. cbn [app]. rewrite <- app_assoc. cbn [app].
  rewrite skip_ws_head by done. change (34 =? 34) with true. cbn iota.
  rewrite parse_chars_quote_chars. by rewrite skip_ws_head.
Qed.

(** The members of an object, written with commas and a closing brace. *)
Lemma parse_members_items (ms : list (jsstring * list N * json)) :
  ms ≠ [] →
  Forall (λ m, parses m.1.2 m.2) ms →
  ∃ need, ∀ f rest, (need ≤ f)%nat →
    parse_members f (join_comma (member_text <$> ms) ++ 125 :: rest)
    = POk (member_value <$> ms) rest.
Proof.
  induction ms as [|[[k t] v] ms IH]; [done|]. intros _ Hall.
  apply Forall_cons in Hall as [[_ [need Hv]] Hall]. simpl in Hv.
  destruct ms as [|y ms].
  - exists (S need). intros [|f] rest Hf; [lia|].
    cbn [fmap list_fmap join_comma parse_members]. unfold member_text at 1.
    cbn [fst snd]. unfold stringify_member. rewrite <- app_assoc. cbn [app].
    rewrite members_step_member, Hv by (lia || by right; right).
    by rewrite skip_ws_head.
  - destruct IH as [need' IH]; [done..|].
    exists (S (need `max` need')). intros [|f] rest Hf; [lia|].
    rewrite !fmap_cons. cbn [join_comma parse_members]. unfold member_text at 1.
    cbn [fst snd]. unfold stringify_member. rewrite <- !app_assoc. cbn [app].
    rewrite members_step_member, Hv by (lia || by left).
    rewrite skip_ws_head by done. change (44 =? 44) with true. cbn iota.
    rewrite <- !fmap_cons, IH by lia. done.
Qed.

Lemma parses_object (ms : list (jsstring * list N * json)) :
  ms ≠ [] →
  Forall (λ m, parses m.1.2 m.2) ms →
  parses (stringify_object (member_text <$> ms)) (make_object (member_value <$> ms)).
Proof.
  intros Hne Hall. split; [by eexists 123, _|].
  destruct (parse_members_items ms) as [need Hitems]; [done..|].
  exists (S need). intros [|f] rest Hf _; [lia|].
  unfold stringify_object. cbn [parse_value app]. rewrite <- app_assoc. cbn [app].
  unfold value_step. rewrite skip_ws_head by done.
  change (123 =? 34) with false. change (123 =? 91) with false.
  change (123 =? 123) with true. cbn iota.
  rewrite Hitems by lia.
  destruct ms as [|[[k t] v] ms]; [done|]. rewrite fmap_cons.
  unfold member_text at 1. unfold stringify_member, quote. cbn [fst snd].
  destruct (member_text <$> ms); cbn [join_comma app]; by rewrite skip_ws_head.
Qed.

Lemma parses_block (b : Block.t) : parses (stringify_block b) (of_block b).
Proof.
  apply (parses_object
    [ (lit "id", quote (Block.id b), JStr (Block.id b));
      (lit "type", quote (type_string (Block.type b)),
       JStr (type_string (Block.type b)));
      (lit "content", quote (Block.content b), JStr (Block.content b)) ]);
    [done|]. repeat constructor; apply parses_string.
Qed.

Lemma parses_blocks (bs : list Block.t) : parses (stringify_blocks bs) (of_blocks bs).
Proof.
  unfold stringify_blocks, of_blocks.
  pose proof (parses_array ((λ b, (stringify_block b, of_block b)) <$> bs)) as Harr.
  rewrite <- !list_fmap_compose in Harr. apply Harr.
  apply Forall_fmap, Forall_forall. intros b _. apply parses_block.
Qed.

Lemma parses_note (n : Note.t) : parses (stringify_note n) (of_note n).
Proof.
  apply (parses_object
    [ (lit "id", quote (Note.id n), JStr (Note.id n));
      (lit "title", quote (Note.title n), JStr (Note.title n));
      (lit "blocks", stringify_blocks (Note.blocks n), of_blocks (Note.blocks n));
      (lit "created", number_to_string (Note.created n),
       JNum (inject_Z (Note.created n)));
      (lit "updated", number_to_string (Note.updated n),
       JNum (inject_Z (Note.updated n))) ]);
    [done|].
  repeat constructor;
    first [apply parses_string | apply parses_blocks | apply parses_number].
Qed.

Lemma parses_notes (ns : list Note.t) : parses (stringify ns) (of_notes ns).
Proof.
  unfold stringify, of_notes.
  pose proof (parses_array ((λ n, (stringify_note n, of_note n)) <$> ns)) as Harr.
  rewrite <- !list_fmap_compose in Harr. apply Harr.
  apply Forall_fmap, Forall_forall. intros n _. apply parses_note.
Qed.

(** [JSON.parse(JSON.stringify(notes))] is [notes]. *)
Lemma parse_stringify (ns : list Note.t) : parse (stringify ns) = Returns (of_notes ns).
Proof.
  destruct (parses_notes ns) as [_ [need Hparse]].
  apply (parse_with_fuel need). rewrite <- (app_nil_r (stringify ns)) at 1.
  by apply Hparse.
Qed.
End JSON_facts.

(** ** Local storage *)

#[global] Instance type_string_inj : Inj (=) (=) JSON.type_string.
Proof. by intros [] [] Heq. Qed.

#[global] Instance of_block_inj : Inj (=) (=) JSON.of_block.
Proof.
  intros [i1 t1 c1] [i2 t2 c2]. unfold JSON.of_block. simpl.
  intros [= -> Ht%(inj _) ->]. by rewrite Ht.
Qed.

#[global] Instance of_note_inj : Inj (=) (=) JSON.of_note.
Proof.
  intros [i1 t1 b1 c1 u1] [i2 t2 b2 c2 u2]. unfold JSON.of_note, JSON.of_blocks.
  simpl. intros [= -> -> Hb%(inj _) -> ->]. by rewrite Hb.
Qed.

#[global] Instance of_notes_inj : Inj (=) (=) JSON.of_notes.
Proof. intros ns1 ns2. unfold JSON.of_notes. by intros [= Hn%(inj _)]. Qed.

Lemma stringify_not_empty (notes : list Note.t) : JSON.stringify notes ≠ [].
Proof. done. Qed.

Lemma loadNotes_stored (ls : Storage) (raw : jsstring) :
  ls !! LS_KEY = Some raw →
  loadNotes ls
  = if decide (raw = []) then Returns (JArr [])
    else match JSON.parse raw with
         | Returns v => Returns v
         | Throws _ => Returns (JArr [])
         end.
Proof.
  intros Hraw. unfold loadNotes, getItem. rewrite Hraw.
  case_decide; [done|]. by destruct (JSON.parse raw).
Qed.

(** C3, as stated, fails: the stored text "42" is not the JSON of an array
    of notes, [loadNotes] does not throw, and what it returns is the number
    42, not the empty collection. *)
Lemma loadNotes_returns_what_parses :
  let ls : Storage := {[ LS_KEY := lit "42" ]} in
  (∀ notes, JSON.stringify notes ≠ lit "42")
  ∧ (∀ notes, JSON.parse (lit "42") ≠ Returns (JSON.of_notes notes))
  ∧ loadNotes ls = Returns (JNum (inject_Z 42))
  ∧ loadNotes ls ≠ Returns (JArr []).
Proof.
  split; [done|]. split; [by vm_compute|].
  assert (Hload : loadNotes {[ LS_KEY := lit "42" ]} = Returns (JNum (inject_Z 42))).
  { rewrite (loadNotes_stored _ (lit "42")) by apply lookup_singleton_eq.
    by vm_compute. }
  split; [done|]. by rewrite Hload.
Qed.

(** C3, amended. [loadNotes] never throws. It returns the empty collection
    when the key is absent, when the stored text is empty and when
    [JSON.parse] throws on it; otherwise it returns what [JSON.parse]
    returns, whatever that value is. *)
Theorem loadNotes_fails_soft (ls : Storage) :
  ∃ v, loadNotes ls = Returns v
    ∧ (ls !! LS_KEY = None → v = JArr [])
    ∧ (ls !! LS_KEY = Some [] → v = JArr [])
    ∧ (∀ raw e, ls !! LS_KEY = Some raw → JSON.parse raw = Throws e → v = JArr [])
    ∧ (∀ raw w, ls !! LS_KEY = Some raw → raw ≠ [] → JSON.parse raw = Returns w →
       v = w).
Proof.
  destruct (ls !! LS_KEY) as [raw|] eqn:Hraw.
  - rewrite (loadNotes_stored _ _ Hraw).
    destruct (decide (raw = [])) as [->|Hne].
    + exists (JArr []). split_and!; try done. intros raw w [= <-]. done.
    + destruct (JSON.parse raw) as [w|e] eqn:Hparse.
      * exists w. split_and!; try done.
        -- intros [= ->]. done.
        -- intros raw' e [= <-]. by rewrite Hparse.
        -- intros raw' w' [= <-] _. rewrite Hparse. by intros [= ->].
      * exists (JArr []). split_and!; try done.
        intros raw' w' [= <-] _. by rewrite Hparse.
  - exists (JArr []). unfold loadNotes, getItem. rewrite Hraw. by split_and!.
Qed.

(** C4. Loading right after saving a well-formed collection, the empty one
    included, returns that collection: the value returned is the array of
    the saved notes, and it is the array of no other collection. *)
Theorem loadNotes_saveNotes (notes : list Note.t) (ls : Storage) :
  well_formed notes →
  loadNotes (saveNotes notes ls) = Returns (JSON.of_notes notes)
  ∧ ∀ notes', loadNotes (saveNotes notes ls) = Returns (JSON.of_notes notes') →
      notes' = notes.
Proof.
  intros _.
  assert (Hload : loadNotes (saveNotes notes ls) = Returns (JSON.of_notes notes)).
  { rewrite (loadNotes_stored _ (JSON.stringify notes)) by apply lookup_insert_eq.
    rewrite decide_False by apply stringify_not_empty.
    by rewrite JSON_facts.parse_stringify. }
  split; [done|]. intros notes'. rewrite Hload. intros [= Heq]. by apply (inj _) in Heq.
Qed.

(** ** The properties at the example values *)

Lemma handleDeleteNote_present_witness :
  lit "b" ∈ Note.id <$> App.notes example_app
  ∧ ∃ i n next,
      App.notes example_app !! i = Some n ∧ Note.id n = lit "b"
      ∧ handleDeleteNote true (lit "b") example_app
        = Returns {| App.notes := filter (λ m, Note.id m ≠ lit "b") (App.notes example_app);
                     App.selectedId := next |}.
Proof.
  assert (Hin : lit "b" ∈ Note.id <$> App.notes example_app)
    by (vm_compute; repeat constructor).
  split; [exact Hin|].
  destruct (handleDeleteNote_present example_app (lit "b") Hin)
    as (i & n & next & Hi & Hn & _ & Hdel & _).
  exists i, n, next. repeat split; assumption.
Defined.

Lemma handleDeleteNote_absent_witness :
  (2 ≤ length (App.notes example_app))%nat
  ∧ (lit "z" ∉ Note.id <$> App.notes example_app)
  ∧ handleDeleteNote true (lit "z") example_app = Throws TypeError.
Proof.
  assert (Hlen : (2 ≤ length (App.notes example_app))%nat) by (simpl; lia).
  assert (Hnot : lit "z" ∉ Note.id <$> App.notes example_app)
    by (apply (bool_decide_unpack _); vm_compute; exact I).
  split; [exact Hlen|]. split; [exact Hnot|].
  exact (proj2 (proj2 (handleDeleteNote_absent example_app (lit "z") Hlen Hnot))).
Defined.

Lemma handleUpdateNote_keeps_created_witness :
  let note := example_note (lit "b") 1700000000001 in
  let updated := snapshot note (lit "Plan") example_blocks in
  App.notes example_app !! 1%nat = Some note
  ∧ autosave note (lit "Plan") example_blocks = Some updated
  ∧ ∃ n', handleUpdateNote 1700000000005 updated (App.notes example_app) !! 1%nat = Some n'
      ∧ Note.updated n' = 1700000000005
      ∧ Note.created n' = Note.created note.
Proof.
  intros note updated.
  assert (Hi : App.notes example_app !! 1%nat = Some note) by reflexivity.
  assert (Hsave : autosave note (lit "Plan") example_blocks = Some updated)
    by (vm_compute; reflexivity).
  split; [exact Hi|]. split; [exact Hsave|].
  destruct (handleUpdateNote_keeps_created 1700000000005 (App.notes example_app) 1 note
              (lit "Plan") example_blocks updated Hi Hsave)
    as ((n' & Hn' & Hu & Hc & _) & _).
  exists n'. repeat split; assumption.
Defined.

Lemma loadNotes_saveNotes_witness :
  well_formed (App.notes example_app)
  ∧ loadNotes (saveNotes (App.notes example_app) ∅)
    = Returns (JSON.of_notes (App.notes example_app)).
Proof.
  assert (Hwf : well_formed (App.notes example_app)).
  { unfold well_formed, well_formed_note, well_formed_block, code_units, safe_integer.
    simpl. repeat (constructor || split); vm_compute; done. }
  split; [exact Hwf|].
  exact (proj1 (loadNotes_saveNotes (App.notes example_app) ∅ Hwf)).
Defined.

Lemma slash_key_text_to_heading_witness :
  let b := Block.mk (lit "b1") text [] in
  let press := editor_step (BlockKeyDown 1 (example_key (lit "/")) (lit "r")) in
  Editor.blocks example_editor !! 1%nat = Some b
  ∧ Block.type b = text
  ∧ key (example_key (lit "/")) = lit "/"
  ∧ (∃ h, Editor.blocks (press example_editor) !! 1%nat = Some h
       ∧ Block.type h = heading)
  ∧ press (press (press example_editor)) = press example_editor.
Proof.
  intros b press.
  assert (Hi : Editor.blocks example_editor !! 1%nat = Some b) by reflexivity.
  assert (Hty : Block.type b = text) by reflexivity.
  assert (Hkey : key (example_key (lit "/")) = lit "/") by reflexivity.
  split; [exact Hi|]. split; [exact Hty|]. split; [exact Hkey|].
  destruct (slash_key_text_to_heading example_editor 1 b (example_key (lit "/"))
              (lit "r") Hi Hty Hkey) as ((h & Hh & Hhty & _) & _ & _ & _ & H3 & _).
  split; [|exact H3]. exists h. split; assumption.
Defined.

Lemma insertBlockAfter_spec_witness :
  let A := Block.mk (lit "b0") heading (lit "New Note") in
  let B := Block.mk (lit "b1") text [] in
  example_blocks !! 0%nat = Some A
  ∧ key (example_key (lit "Enter")) = lit "Enter"
  ∧ shiftKey (example_key (lit "Enter")) = false
  ∧ (handleBlockKeyDown (example_key (lit "Enter")) 0 A (lit "r") example_blocks).1
    = [A; Block.mk (lit "r") text []; B].
Proof.
  intros A B.
  assert (Hi : example_blocks !! 0%nat = Some A) by reflexivity.
  assert (Hkey : key (example_key (lit "Enter")) = lit "Enter") by reflexivity.
  assert (Hshift : shiftKey (example_key (lit "Enter")) = false) by reflexivity.
  split; [exact Hi|]. split; [exact Hkey|]. split; [exact Hshift|].
  exact (proj1 (insertBlockAfter_spec example_blocks 0 A (example_key (lit "Enter"))
                  (lit "r") Hi Hkey Hshift)).
Defined.

Lemma editor_keeps_a_block_witness :
  let ev := BlockKeyDown 1 (example_key (lit "Backspace")) (lit "r") in
  NoDup (Block.id <$> Editor.blocks example_editor)
  ∧ Editor.blocks example_editor ≠ []
  ∧ Editor.blocks (editor_step ev example_editor) ≠ [].
Proof.
  intros ev.
  assert (Hnd : NoDup (Block.id <$> Editor.blocks example_editor))
    by (apply (bool_decide_unpack _); vm_compute; exact I).
  assert (Hne : Editor.blocks example_editor ≠ []) by discriminate.
  split; [exact Hnd|]. split; [exact Hne|].
  exact (proj1 (editor_keeps_a_block ev example_editor Hnd Hne)).
Defined.

(** * Further properties *)

(** ** Finding an element *)

Section finding.
Context {A : Type} (P : A → Prop) `{∀ x, Decision (P x)}.

Lemma find_cons (x : A) (l : list A) :
  find P (x :: l) = if decide (P x) then Some x else find P l.
Proof.
  unfold find. simpl. case_decide; [done|]. by destruct (list_find P l) as [[? ?]|].
Qed.

Lemma find_Some_elem (l : list A) (x : A) : find P l = Some x → x ∈ l ∧ P x.
Proof.
  unfold find. destruct (list_find P l) as [[i y]|] eqn:Hfind; [|done].
  intros [= <-]. apply list_find_Some in Hfind as (Hi & HP & _).
  split; [by eapply list_elem_of_lookup_2|done].
Qed.

Lemma find_None (l : list A) : find P l = None ↔ Forall (λ x, ¬ P x) l.
Proof.
  unfold find. split.
  - intros Hf. apply (proj1 (list_find_None P l)).
    by destruct (list_find P l) as [[? ?]|].
  - intros Hall. by rewrite (proj2 (list_find_None P l) Hall).
Qed.

(** Filtering by a weaker predicate does not change what is found. *)
Lemma find_filter (Q : A → Prop) `{∀ x, Decision (Q x)} (l : list A) :
  (∀ x, P x → Q x) → find P (filter Q l) = find P l.
Proof.
  intros HPQ. induction l as [|x l IH]; [done|].
  rewrite find_cons. destruct (decide (Q x)) as [HQ|HQ].
  - rewrite filter_cons_True, find_cons, IH by done. done.
  - rewrite filter_cons_False, IH by done. by rewrite decide_False by auto.
Qed.

(** A map that keeps the predicate maps what is found. *)
Lemma find_fmap (f : A → A) (l : list A) :
  (∀ x, P (f x) ↔ P x) → find P (f <$> l) = f <$> find P l.
Proof.
  intros Hf. induction l as [|x l IH]; [done|].
  rewrite fmap_cons, !find_cons, IH.
  destruct (decide (P x)) as [HP|HP].
  - by rewrite decide_True by (by apply Hf).
  - by rewrite decide_False by (by rewrite Hf).
Qed.
End finding.

(** With unique keys, the first element with the key of the element at
    [i] is that element. *)
Lemma list_find_unique_key {A K : Type} `{EqDecision K} (f : A → K) (l : list A)
    (i : nat) (x : A) :
  NoDup (f <$> l) → l !! i = Some x →
  list_find (λ y, f y = f x) l = Some (i, x).
Proof.
  intros Hnd Hi. apply list_find_Some. split_and!; [done..|].
  intros j y Hj Hlt Heq.
  assert (j = i); [|lia].
  apply (NoDup_lookup (f <$> l) j i (f x) Hnd); rewrite list_lookup_fmap.
  - by rewrite Hj, <- Heq.
  - by rewrite Hi.
Qed.

Lemma NoDup_fmap_lookup_ne {A K : Type} (f : A → K) (l : list A) (i j : nat) (x y : A) :
  NoDup (f <$> l) → l !! i = Some x → l !! j = Some y → i ≠ j → f x ≠ f y.
Proof.
  intros Hnd Hi Hj Hne Heq. apply Hne.
  apply (NoDup_lookup (f <$> l) i j (f x) Hnd); rewrite list_lookup_fmap.
  - by rewrite Hi.
  - by rewrite Hj, Heq.
Qed.

(** ** More on the note store *)

(** The note next to the one at index [i]: the one before it, or the one
    at index 1 for the first. *)
Lemma handleDeleteNote_first (st : App.state) (id : jsstring) (j : nat) (n : Note.t) :
  list_find (λ m, Note.id m = id) (App.notes st) = Some (j, n) →
  handleDeleteNote true id st
  = Returns {| App.notes := filter (λ m, Note.id m ≠ id) (App.notes st);
               App.selectedId :=
                 if decide (1 < length (App.notes st))%nat
                 then Note.id <$> App.notes st !! (if decide (j = 0%nat) then 1 else j - 1)%nat
                 else None |}.
Proof.
  destruct st as [notes sel]. simpl. intros Hfind.
  pose proof (findIndex_found _ _ _ _ Hfind) as Hidx.
  apply list_find_Some in Hfind as (Hj & _ & _).
  pose proof (lookup_lt_Some _ _ _ Hj) as Hlt.
  unfold handleDeleteNote. simpl. rewrite Hidx.
  destruct (decide (1 < length notes)%nat) as [Hmany|Hone]; [|done].
  destruct (decide (j = 0%nat)) as [->|Hj0].
  - rewrite decide_True by done.
    destruct (lookup_lt_is_Some_2 notes 1%nat Hmany) as [m Hm].
    change 1 with (Z.of_nat 1). by rewrite at_index_nat, Hm.
  - rewrite decide_False by lia.
    assert (is_Some (notes !! (j - 1)%nat)) as [m Hm]
      by (apply lookup_lt_is_Some_2; lia).
    replace (Z.of_nat j - 1) with (Z.of_nat (j - 1)) by lia.
    by rewrite at_index_nat, Hm.
Qed.

(** X1. The delete button of a note never throws: [handleDeleteNote] with
    the id of a note of the collection returns; without confirmation the
    state is the same, with it no note with that id is left and the
    collection is shorter. *)
Theorem handleDeleteNote_of_note (confirmed : bool) (st : App.state) (i : nat)
    (note : Note.t) :
  App.notes st !! i = Some note →
  ∃ st', handleDeleteNote confirmed (Note.id note) st = Returns st'
    ∧ (confirmed = false → st' = st)
    ∧ (confirmed = true →
       (Note.id note ∉ Note.id <$> App.notes st')
       ∧ (length (App.notes st') < length (App.notes st))%nat
       ∧ ∀ m, m ∈ App.notes st → Note.id m ≠ Note.id note → m ∈ App.notes st').
Proof.
  intros Hi. destruct confirmed.
  - assert (Hin : note ∈ App.notes st) by (by eapply list_elem_of_lookup_2).
    destruct (list_find_elem_of (λ m, Note.id m = Note.id note) (App.notes st) note)
      as [[j n] Hfind]; [done..|].
    eexists. split; [by apply (handleDeleteNote_first _ _ _ _ Hfind)|].
    split; [done|]. intros _. simpl. split_and!.
    + intros (m & Hid & Hm%list_elem_of_filter)%list_elem_of_fmap. by destruct Hm.
    + by apply (length_filter_lt _ _ note); [|intros Hne; apply Hne].
    + intros m Hm Hne. by apply list_elem_of_filter.
  - exists st. by split_and!.
Qed.

(** X2. With unique ids and several notes, a confirmed delete of the note
    at index [i] selects the note next to it, which is still there,
    whatever was selected before: when another note was selected, and is
    neither the deleted one nor that neighbour, it stays in the collection
    and is no longer selected. *)
Theorem handleDeleteNote_selects_neighbour (st : App.state) (i : nat) (note : Note.t) :
  unique_ids st →
  App.notes st !! i = Some note →
  (1 < length (App.notes st))%nat →
  let j := if decide (i = 0%nat) then 1%nat else (i - 1)%nat in
  ∃ m st',
    App.notes st !! j = Some m
    ∧ handleDeleteNote true (Note.id note) st = Returns st'
    ∧ App.notes st' = delete i (App.notes st)
    ∧ selectedNote st' = Some m
    ∧ ∀ k old, App.notes st !! k = Some old → App.selectedId st = Some (Note.id old) →
        k ≠ i → k ≠ j → old ∈ App.notes st' ∧ selectedNote st' ≠ Some old.
Proof.
  intros Hnd Hi Hlen j. unfold unique_ids in Hnd.
  pose proof (lookup_lt_Some _ _ _ Hi) as Hlt.
  assert (Hji : j ≠ i) by (unfold j; case_decide; lia).
  assert (is_Some (App.notes st !! j)) as [m Hm]
    by (apply lookup_lt_is_Some_2; unfold j; case_decide; lia).
  pose proof (NoDup_fmap_lookup_ne Note.id _ _ _ _ _ Hnd Hm Hi Hji) as Hmid.
  pose proof (handleDeleteNote_first st _ _ _ (list_find_unique_key Note.id _ _ _ Hnd Hi))
    as Hdel.
  rewrite decide_True in Hdel by done. fold j in Hdel. rewrite Hm in Hdel. simpl in Hdel.
  assert (Hsel : selectedNote
            {| App.notes := filter (λ x, Note.id x ≠ Note.id note) (App.notes st);
               App.selectedId := Some (Note.id m) |} = Some m).
  { unfold selectedNote. simpl.
    rewrite find_filter by (intros x [= Hx]; by rewrite Hx).
    unfold find.
    rewrite (list_find_ext _ (λ y, Note.id y = Note.id m)) by (intros x; split; congruence).
    by rewrite (list_find_unique_key Note.id _ _ _ Hnd Hm). }
  exists m. eexists. split; [done|]. split; [exact Hdel|].
  split; [by apply filter_key_delete|]. split; [exact Hsel|].
  intros k old Hk _ Hki Hkj. split.
  - simpl. apply list_elem_of_filter. split; [|by eapply list_elem_of_lookup_2].
    by apply (NoDup_fmap_lookup_ne Note.id _ _ _ _ _ Hnd Hk Hi).
  - rewrite Hsel. intros [= ->].
    by apply Hkj, (NoDup_lookup (App.notes st) k j old (NoDup_fmap_1 _ _ Hnd)).
Qed.

Lemma handleUpdateNote_ids (now : Z) (updated : Note.t) (prev : list Note.t) :
  Note.id <$> handleUpdateNote now updated prev = Note.id <$> prev.
Proof.
  unfold handleUpdateNote. rewrite <- list_fmap_compose. apply list_fmap_ext.
  intros _ n _. simpl. by case_decide.
Qed.

(** X3. [handleUpdateNote] keeps the number, the order and the ids of the
    notes; a note with another id is left as it is, a note with the id of
    the snapshot becomes the stamped snapshot; a second update with the
    same snapshot at the same time changes nothing more. *)
Theorem handleUpdateNote_frame (now : Z) (updated : Note.t) (prev : list Note.t) :
  Note.id <$> handleUpdateNote now updated prev = Note.id <$> prev
  ∧ length (handleUpdateNote now updated prev) = length prev
  ∧ (∀ i n, prev !! i = Some n → Note.id n ≠ Note.id updated →
     handleUpdateNote now updated prev !! i = Some n)
  ∧ (∀ i n, prev !! i = Some n → Note.id n = Note.id updated →
     handleUpdateNote now updated prev !! i = Some (stamp now updated))
  ∧ handleUpdateNote now updated (handleUpdateNote now updated prev)
    = handleUpdateNote now updated prev.
Proof.
  split_and!.
  - apply handleUpdateNote_ids.
  - unfold handleUpdateNote. by rewrite length_fmap.
  - intros i n Hi Hne. by rewrite (handleUpdateNote_lookup _ _ _ _ _ Hi), decide_False.
  - intros i n Hi Heq. by rewrite (handleUpdateNote_lookup _ _ _ _ _ Hi), decide_True.
  - unfold handleUpdateNote. rewrite <- list_fmap_compose. apply list_fmap_ext.
    intros _ n _. simpl. destruct (decide (Note.id n = Note.id updated)) as [Heq|Hne].
    + by rewrite decide_True.
    + by rewrite decide_False.
Qed.

(** ** More on the block editor *)

Lemma NoDup_fmap_elem_eq {A K : Type} (f : A → K) (l : list A) (x y : A) :
  NoDup (f <$> l) → x ∈ l → y ∈ l → f x = f y → x = y.
Proof.
  intros Hnd (i & Hi)%list_elem_of_lookup (j & Hj)%list_elem_of_lookup Heq.
  destruct (decide (i = j)) as [->|Hne]; [congruence|].
  by destruct (NoDup_fmap_lookup_ne f l i j x y).
Qed.




(** What a key does to the block list: nothing, an insertion, a removal,
    or a change of type from a text block. *)
Lemma handleBlockKeyDown_cases (e : KeyboardEvent) (idx : nat) (block : Block.t)
    (r : jsstring) (blocks : list Block.t) :
  let next := (handleBlockKeyDown e idx block r blocks).1 in
  next = blocks
  ∨ next = insertBlockAfter idx r blocks
  ∨ next = removeBlock (Block.id block) blocks
  ∨ (Block.type block = text ∧ next = cycleBlockType (Block.id block) blocks).
Proof.
  unfold handleBlockKeyDown.
  repeat case_decide; destruct_and?; simpl;
    try (exfalso;
         match goal with
         | H1 : key e = _, H2 : key e = _ |- _ => rewrite H1 in H2; done
         end);
    auto.
Qed.

Lemma handleBlockKeyDown_focus_Backspace (e : KeyboardEvent) (idx : nat)
    (block : Block.t) (r : jsstring) (blocks : list Block.t) :
  key e = lit "Backspace" → Block.content block = [] → (1 < length blocks)%nat →
  (handleBlockKeyDown e idx block r blocks).2
  = match idx with
    | O => None
    | S k => Block.id <$> blocks !! k
    end.
Proof.
  intros Hkey Hc Hlen. unfold handleBlockKeyDown. rewrite Hkey.
  rewrite (decide_False (P := lit "Backspace" = lit "Enter" ∧ _)) by (by intros [? _]).
  rewrite (decide_True (P := lit "Backspace" = lit "Backspace" ∧ _)) by done.
  rewrite (decide_False (P := lit "Backspace" = lit "/" ∧ _)) by (by intros [? _]).
  simpl. destruct idx as [|k].
  - by rewrite at_index_negative.
  - replace (Z.of_nat (S k) - 1) with (Z.of_nat k) by lia. rewrite at_index_nat.
    by destruct (blocks !! k).
Qed.

(** X6. Where the focus goes. Enter without shift asks for the focus on
    the new block, which is in the list. Backspace that removes the block
    at index [idx], with unique block ids, asks for the focus on the block
    before it, which stays in the list, and for nothing when the removed
    block was the first. *)
Theorem handleBlockKeyDown_focus (e : KeyboardEvent) (idx : nat) (block : Block.t)
    (r : jsstring) (blocks : list Block.t) :
  NoDup (Block.id <$> blocks) →
  blocks !! idx = Some block →
  let next := (handleBlockKeyDown e idx block r blocks).1 in
  let focus := (handleBlockKeyDown e idx block r blocks).2 in
  (key e = lit "Enter" → shiftKey e = false →
   focus = Some r ∧ next !! S idx = Some (newBlock r))
  ∧ (key e = lit "Backspace" → Block.content block = [] → (1 < length blocks)%nat →
     match idx with
     | O => focus = None
     | S k => ∃ p, blocks !! k = Some p ∧ focus = Some (Block.id p) ∧ p ∈ next
     end).
Proof.
  intros Hnd Hi next focus. pose proof (lookup_lt_Some _ _ _ Hi) as Hlt. split.
  - intros Hkey Hshift. unfold focus, next.
    rewrite handleBlockKeyDown_Enter by done. simpl. split; [done|].
    unfold insertBlockAfter.
    assert (Htake : length (take (S idx) blocks) = S idx) by (rewrite length_take; lia).
    rewrite lookup_app_r by lia. by rewrite Htake, Nat.sub_diag.
  - intros Hkey Hc Hlen. unfold focus, next.
    rewrite handleBlockKeyDown_focus_Backspace by done.
    rewrite handleBlockKeyDown_Backspace, decide_True by done.
    destruct idx as [|k]; [done|].
    assert (is_Some (blocks !! k)) as [p Hp] by (apply lookup_lt_is_Some_2; lia).
    exists p. rewrite Hp. split_and!; [done..|].
    apply list_elem_of_filter. split; [|by eapply list_elem_of_lookup_2].
    apply (NoDup_fmap_lookup_ne Block.id blocks k (S k)); [done..|lia].
Qed.

(** X7. The type of a block only ever goes from text to heading. After an
    event of the editor, with unique block ids, every block is the new
    text block of an Enter, or comes from a block with its id which had
    the same type, or was a text block and is now a heading. So no event
    makes a bulleted-list block, and a heading never becomes text again. *)
Theorem editor_step_types (ev : EditorEvent) (st : Editor.state) (b' : Block.t) :
  NoDup (Block.id <$> Editor.blocks st) →
  b' ∈ Editor.blocks (editor_step ev st) →
  ((∃ b, b ∈ Editor.blocks st ∧ Block.id b = Block.id b'
         ∧ (Block.type b' = Block.type b
            ∨ (Block.type b = text ∧ Block.type b' = heading)))
   ∨ (∃ idx e r, ev = BlockKeyDown idx e r ∧ b' = newBlock r))
  ∧ ((∀ b, b ∈ Editor.blocks st → Block.type b ≠ bulleted_list) →
     Block.type b' ≠ bulleted_list).
Proof.
  intros Hnd Hb'.
  assert (Hmain :
    (∃ b, b ∈ Editor.blocks st ∧ Block.id b = Block.id b'
          ∧ (Block.type b' = Block.type b
             ∨ (Block.type b = text ∧ Block.type b' = heading)))
    ∨ (∃ idx e r, ev = BlockKeyDown idx e r ∧ b' = newBlock r)).
  { destruct st as [title blocks]. simpl in *.
    assert (Hsame : b' ∈ blocks → ∃ b, b ∈ blocks ∧ Block.id b = Block.id b'
              ∧ (Block.type b' = Block.type b
                 ∨ (Block.type b = text ∧ Block.type b' = heading)))
      by (intros Hin; exists b'; auto).
    assert (Hinput : ∀ id content, b' ∈ handleBlockInput id content blocks →
              ∃ b, b ∈ blocks ∧ Block.id b = Block.id b'
                ∧ (Block.type b' = Block.type b
                   ∨ (Block.type b = text ∧ Block.type b' = heading))).
    { intros id content (b & -> & Hb)%list_elem_of_fmap. exists b.
      split; [done|]. case_decide; auto. }
    destruct ev as [value|idx innerText|idx e r|idx clip s1 s2]; simpl in Hb'.
    - left. auto.
    - left. destruct (blocks !! idx); simpl in Hb'; eauto.
    - destruct (blocks !! idx) as [block|] eqn:Hi; simpl in Hb'; [|left; auto].
      destruct (handleBlockKeyDown_cases e idx block r blocks)
        as [Heq|[Heq|[Heq|[Hty Heq]]]]; rewrite Heq in Hb'.
      + left. auto.
      + unfold insertBlockAfter in Hb'.
        apply elem_of_app in Hb' as [Hin|Hin].
        * left. apply Hsame. by eapply subseteq_take.
        * apply elem_of_cons in Hin as [->|Hin]; [right; eauto|].
          left. apply Hsame. by eapply subseteq_drop.
      + left. apply Hsame. by apply list_elem_of_filter in Hb' as [_ ?].
      + left. apply list_elem_of_fmap in Hb' as (b & -> & Hb). exists b.
        split; [done|]. case_decide as Hid; [|auto]. simpl. split; [done|].
        assert (b = block) as ->.
        { apply (NoDup_fmap_elem_eq Block.id blocks); [done..| |done].
          by eapply list_elem_of_lookup_2. }
        right. by rewrite Hty.
    - left. destruct (blocks !! idx); simpl in Hb'; [|auto].
      rewrite handleBlockPaste_overwrites in Hb'. eauto. }
  split; [exact Hmain|]. intros Hnone.
  destruct Hmain as [(b & Hb & _ & [Hty|[_ Hty]])|(idx & e & r & _ & ->)].
  - rewrite Hty. by apply Hnone.
  - by rewrite Hty.
  - done.
Qed.

(** Two lists of blocks with the same JSON text are the same list. *)
Lemma stringify_blocks_inj (bs1 bs2 : list Block.t) :
  JSON.stringify_blocks bs1 = JSON.stringify_blocks bs2 → bs1 = bs2.
Proof.
  intros Heq.
  destruct (JSON_facts.parses_blocks bs1) as [_ [need1 Hp1]].
  destruct (JSON_facts.parses_blocks bs2) as [_ [need2 Hp2]].
  specialize (Hp1 (need1 `max` need2)%nat [] ltac:(lia) I).
  specialize (Hp2 (need1 `max` need2)%nat [] ltac:(lia) I).
  rewrite Heq, Hp2 in Hp1. injection Hp1 as Hblocks.
  by apply (inj (fmap JSON.of_block)) in Hblocks.
Qed.

(** X8. The autosave effect gives a snapshot to [onChange] exactly when the
    title or the blocks of the editor differ from those of the note: the
    comparison of the JSON texts of the blocks misses no difference and
    reports none that is not there. The snapshot has the id and the
    timestamps of the note and the title and blocks of the editor. *)
Theorem autosave_exact (note : Note.t) (title : jsstring) (blocks : list Block.t) :
  (autosave note title blocks = None
   ↔ title = Note.title note ∧ blocks = Note.blocks note)
  ∧ (∀ updated, autosave note title blocks = Some updated →
     updated = Note.mk (Note.id note) title blocks (Note.created note)
                 (Note.updated note)).
Proof.
  unfold autosave. split.
  - case_decide as Hdiff; split; try done.
    + intros [-> ->]. by destruct Hdiff.
    + intros _. split.
      * destruct (decide (title = Note.title note)); [done|]. destruct Hdiff. by left.
      * apply stringify_blocks_inj.
        destruct (decide (JSON.stringify_blocks blocks
                          = JSON.stringify_blocks (Note.blocks note))); [done|].
        destruct Hdiff. by right.
  - intros updated. case_decide; [|done]. by intros [= <-].
Qed.

(** X9. The autosave settles: once the snapshot of the editor is stored,
    the effect has nothing more to say for the same title and blocks, so
    an update is not followed by another one. *)
Theorem autosave_settles (now : Z) (prev : list Note.t) (i : nat) (note : Note.t)
    (title : jsstring) (blocks : list Block.t) (updated : Note.t) :
  prev !! i = Some note →
  autosave note title blocks = Some updated →
  ∃ note', handleUpdateNote now updated prev !! i = Some note'
    ∧ Note.title note' = title ∧ Note.blocks note' = blocks
    ∧ autosave note' title blocks = None.
Proof.
  intros Hi Hsave. unfold autosave in Hsave. case_decide; [|done].
  injection Hsave as <-. exists (stamp now (snapshot note title blocks)).
  rewrite (handleUpdateNote_lookup _ _ _ _ _ Hi), decide_True by done.
  split_and!; [done..|]. unfold autosave. simpl.
  rewrite decide_False; [done|]. by intros [?|?].
Qed.

(** ** Rendering *)

Lemma replace_newlines_app (a b : jsstring) :
  replace_newlines (a ++ b) = replace_newlines a ++ replace_newlines b.
Proof.
  induction a as [|c a IH]; [done|]. simpl. case_decide; by rewrite IH.
Qed.

Lemma replace_newlines_line (l : jsstring) :
  10%N ∉ l → replace_newlines l = l ∧ 10%N ∉ replace_newlines l.
Proof.
  induction l as [|c l IH]; [done|]. intros Hnl.
  apply not_elem_of_cons in Hnl as [Hc Hl]. destruct (IH Hl) as [Heq Hnot].
  simpl. rewrite decide_False by done. rewrite Heq. split; [done|].
  by apply not_elem_of_cons.
Qed.

Lemma inner_html_replace (block : Block.t) :
  inner_html block = replace_newlines (Block.content block).
Proof. unfold inner_html. simpl. by case_decide. Qed.

(** X10. The markup of a block is its content with the lines joined by
    [<br/>] instead of a newline: every line is copied as it is, whatever
    it holds, markup included, and the result has no newline. *)
Theorem inner_html_lines (block : Block.t) (lines : list jsstring) :
  Forall (λ l, 10%N ∉ l) lines →
  Block.content block = join [10%N] lines →
  inner_html block = join (lit "<br/>") lines
  ∧ 10%N ∉ inner_html block.
Proof.
  intros Hlines Hcontent. rewrite inner_html_replace, Hcontent. clear Hcontent.
  induction Hlines as [|l lines Hl Hlines [IHeq IHnot]];
    [split; [done|apply not_elem_of_nil]|].
  destruct (replace_newlines_line l Hl) as [Heq Hnot].
  destruct lines as [|l' lines]; [done|].
  change (join [10%N] (l :: l' :: lines)) with (l ++ [10%N] ++ join [10%N] (l' :: lines)).
  change (join (lit "<br/>") (l :: l' :: lines))
    with (l ++ lit "<br/>" ++ join (lit "<br/>") (l' :: lines)).
  rewrite !replace_newlines_app, Heq, IHeq. split; [done|].
  rewrite <- IHeq. rewrite !not_elem_of_app. split_and!; [done| |done].
  by vm_compute; intros H; repeat (apply elem_of_cons in H as [H|H]; [done|]);
     apply elem_of_nil in H.
Qed.

(** ** The application as a whole *)

Lemma selectedNote_Some (st : App.state) (n : Note.t) :
  selectedNote st = Some n → n ∈ App.notes st ∧ App.selectedId st = Some (Note.id n).
Proof. intros [Hin Hsel]%find_Some_elem. by split. Qed.

(** Two selections of the same list that find notes with the same id find
    the same note. *)
Lemma selectedNote_same_id (notes : list Note.t) (sel1 sel2 : option jsstring)
    (n1 n2 : Note.t) :
  selectedNote {| App.notes := notes; App.selectedId := sel1 |} = Some n1 →
  selectedNote {| App.notes := notes; App.selectedId := sel2 |} = Some n2 →
  Note.id n1 = Note.id n2 → n1 = n2.
Proof.
  intros H1 H2 Hid.
  destruct (selectedNote_Some _ _ H1) as [_ Hs1], (selectedNote_Some _ _ H2) as [_ Hs2].
  simpl in *. subst sel1 sel2. rewrite Hid in H1. congruence.
Qed.

Lemma selectedNote_filter (notes : list Note.t) (sel : option jsstring)
    (id : jsstring) (n : Note.t) :
  selectedNote {| App.notes := filter (λ m, Note.id m ≠ id) notes;
                  App.selectedId := sel |} = Some n →
  selectedNote {| App.notes := notes; App.selectedId := sel |} = Some n.
Proof.
  intros Hsel. destruct (selectedNote_Some _ _ Hsel) as [Hin Hid]. simpl in *.
  apply list_elem_of_filter in Hin as [Hne _]. subst sel.
  unfold selectedNote in *. simpl in *. rewrite find_filter in Hsel; [done|].
  intros x [= Hx]. by rewrite Hx.
Qed.

Lemma selectedNote_update (now : Z) (updated note : Note.t) (notes : list Note.t)
    (sel : option jsstring) :
  selectedNote {| App.notes := notes; App.selectedId := sel |} = Some note →
  Note.id updated = Note.id note →
  selectedNote {| App.notes := handleUpdateNote now updated notes;
                  App.selectedId := sel |} = Some (stamp now updated).
Proof.
  unfold selectedNote, handleUpdateNote. simpl. intros Hsel Hid.
  rewrite find_fmap, Hsel; [simpl; by rewrite decide_True|].
  intros x. case_decide as Hx; [simpl; by rewrite Hx|done].
Qed.

(** What a step can be. *)
Lemma ui_step_cases (ev : UIEvent) (s s' : UI.session) :
  ui_step ev s = Returns s' →
  s' = s
  ∨ (∃ r0 r1 r2 t0 t1, ev = ClickNewNote r0 r1 r2 t0 t1
       ∧ s' = commit s (handleAddNote r0 r1 r2 t0 t1 (UI.app s)) true)
  ∨ (∃ i note j n, ev = ClickDelete i true
       ∧ App.notes (UI.app s) !! i = Some note
       ∧ list_find (λ m, Note.id m = Note.id note) (App.notes (UI.app s)) = Some (j, n)
       ∧ s' = commit s
           {| App.notes := filter (λ m, Note.id m ≠ Note.id note) (App.notes (UI.app s));
              App.selectedId :=
                if decide (1 < length (App.notes (UI.app s)))%nat
                then Note.id <$> App.notes (UI.app s)
                                   !! (if decide (j = 0%nat) then 1 else j - 1)%nat
                else None |} true)
  ∨ (∃ i, ev = ClickDelete i false ∧ s' = commit s (UI.app s) false)
  ∨ (∃ i note, ev = ClickNote i
       ∧ App.notes (UI.app s) !! i = Some note
       ∧ s' = commit s {| App.notes := App.notes (UI.app s);
                          App.selectedId := Some (Note.id note) |} false)
  ∨ (∃ e now ed note, ev = Edit e now
       ∧ UI.editor s = Some ed ∧ selectedNote (UI.app s) = Some note
       ∧ (let ed' := editor_step e ed in
          let updated := snapshot note (Editor.title ed') (Editor.blocks ed') in
          let st' := {| App.notes := handleUpdateNote now updated (App.notes (UI.app s));
                        App.selectedId := App.selectedId (UI.app s) |} in
          (autosave note (Editor.title ed') (Editor.blocks ed') = Some updated
           ∧ s' = {| UI.storage := save_effect st' (UI.storage s);
                     UI.app := st'; UI.editor := Some ed' |})
          ∨ (Editor.title ed' = Note.title note ∧ Editor.blocks ed' = Note.blocks note
             ∧ s' = {| UI.storage := UI.storage s; UI.app := UI.app s;
                       UI.editor := Some ed' |}))).
Proof.
  destruct ev as [r0 r1 r2 t0 t1|i confirmed|i|e now]; simpl.
  - intros [= <-]. right; left. by exists r0, r1, r2, t0, t1.
  - destruct (App.notes (UI.app s) !! i) as [note|] eqn:Hi; [|intros [= <-]; by left].
    destruct confirmed.
    + assert (Hin : note ∈ App.notes (UI.app s)) by (by eapply list_elem_of_lookup_2).
      destruct (list_find_elem_of (λ m, Note.id m = Note.id note) _ note Hin)
        as [[j n] Hfind]; [done|].
      rewrite (handleDeleteNote_first _ _ _ _ Hfind). simpl. intros [= <-].
      right; right; left. by exists i, note, j, n.
    + simpl. intros [= <-]. right; right; right; left. by exists i.
  - destruct (App.notes (UI.app s) !! i) as [note|] eqn:Hi; [|intros [= <-]; by left].
    intros [= <-]. do 4 right; left. by exists i, note.
  - destruct (UI.editor s) as [ed|] eqn:Hed; [|intros [= <-]; by left].
    destruct (selectedNote (UI.app s)) as [note|] eqn:Hsel; [|intros [= <-]; by left].
    destruct (autosave note _ _) as [updated|] eqn:Hsave; intros [= <-];
      do 5 right; exists e, now, ed, note; split_and!; try done; simpl.
    + left. unfold autosave in *. case_decide; [|done]. by injection Hsave as <-.
    + right. unfold autosave in Hsave. case_decide as Hdiff; [done|].
      split_and!; [| |done].
      * destruct (decide (Editor.title (editor_step e ed) = Note.title note)); [done|].
        destruct Hdiff. by left.
      * apply stringify_blocks_inj.
        destruct (decide (JSON.stringify_blocks (Editor.blocks (editor_step e ed))
                          = JSON.stringify_blocks (Note.blocks note))); [done|].
        destruct Hdiff. by right.
Qed.

(** No event of the interface throws. *)
Lemma ui_step_returns (ev : UIEvent) (s : UI.session) : ∃ s', ui_step ev s = Returns s'.
Proof.
  destruct ev as [r0 r1 r2 t0 t1|i confirmed|i|e now]; simpl; eauto.
  - destruct (App.notes (UI.app s) !! i) as [note|] eqn:Hi; [|eauto].
    destruct confirmed; [|simpl; eauto].
    assert (Hin : note ∈ App.notes (UI.app s)) by (by eapply list_elem_of_lookup_2).
    destruct (list_find_elem_of (λ m, Note.id m = Note.id note) _ note Hin)
      as [[j n] Hfind]; [done|].
    rewrite (handleDeleteNote_first _ _ _ _ Hfind). simpl. eauto.
  - destruct (App.notes (UI.app s) !! i); eauto.
  - destruct (UI.editor s); [|eauto]. destruct (selectedNote (UI.app s)); [|eauto].
    destruct (autosave _ _ _); eauto.
Qed.

(** A property kept by every step holds along every run. *)
Lemma run_invariant (Inv : UI.session → Prop) (ok : UIEvent → UI.session → bool) :
  (∀ ev s s', Inv s → ok ev s = true → ui_step ev s = Returns s' → Inv s') →
  ∀ evs s, Inv s → along ok evs s = true → ∃ s', run evs s = Returns s' ∧ Inv s'.
Proof.
  intros Hstep evs. induction evs as [|ev evs IH]; intros s Hinv Hok; [by exists s|].
  simpl in Hok. apply andb_true_iff in Hok as [Hev Hrest].
  destruct (ui_step_returns ev s) as [s1 Hs1]. rewrite Hs1 in Hrest.
  destruct (IH s1) as (s' & Hrun & Hinv'); [by eapply Hstep|done|].
  exists s'. simpl. by rewrite Hs1.
Qed.

(** *** Steps *)

Lemma step_unique_ids (ev : UIEvent) (s s' : UI.session) :
  unique_ids (UI.app s) → fresh ev s = true → ui_step ev s = Returns s' →
  unique_ids (UI.app s').
Proof.
  unfold unique_ids. intros Hnd Hfresh Hstep.
  destruct (ui_step_cases _ _ _ Hstep)
    as [->|[(r0 & r1 & r2 & t0 & t1 & -> & ->)|[(i & note & j & n & -> & Hi & Hfind & ->)
       |[(i & -> & ->)|[(i & note & -> & Hi & ->)
       |(e & now & ed & note & -> & Hed & Hsel & [[Hsave ->]|(_ & _ & ->)])]]]]];
    simpl; try done.
  - simpl in Hfresh. apply bool_decide_eq_true in Hfresh as [Hr0 _].
    by apply NoDup_cons.
  - eapply sublist_NoDup; [exact Hnd|]. apply fmap_sublist, sublist_filter.
  - by rewrite handleUpdateNote_ids.
Qed.

Lemma step_selection_ok (ev : UIEvent) (s s' : UI.session) :
  unique_ids (UI.app s) → selection_ok (UI.app s) → ui_step ev s = Returns s' →
  selection_ok (UI.app s').
Proof.
  unfold unique_ids, selection_ok. intros Hnd Hok Hstep.
  destruct (ui_step_cases _ _ _ Hstep)
    as [->|[(r0 & r1 & r2 & t0 & t1 & -> & ->)|[(i & note & j & n & -> & Hi & Hfind & ->)
       |[(i & -> & ->)|[(i & note & -> & Hi & ->)
       |(e & now & ed & note & -> & Hed & Hsel & [[Hsave ->]|(_ & _ & ->)])]]]]];
    simpl; try done.
  - apply list_elem_of_here.
  - apply list_find_Some in Hfind as (Hj & Hid & _).
    pose proof (lookup_lt_Some _ _ _ Hj) as Hlt.
    destruct (decide (1 < length (App.notes (UI.app s)))%nat) as [Hmany|Hone].
    + set (k := (if decide (j = 0%nat) then 1 else j - 1)%nat).
      assert (Hkj : k ≠ j) by (unfold k; case_decide; lia).
      assert (is_Some (App.notes (UI.app s) !! k)) as [m Hm]
        by (apply lookup_lt_is_Some_2; unfold k; case_decide; lia).
      rewrite Hm. simpl. apply list_elem_of_fmap. exists m. split; [done|].
      apply list_elem_of_filter. split; [|by eapply list_elem_of_lookup_2].
      rewrite <- Hid.
      by apply (NoDup_fmap_lookup_ne Note.id (App.notes (UI.app s)) k j m n).
    + destruct (App.notes (UI.app s)) as [|x [|y l]]; simpl in *; [done| |lia].
      destruct j; [|done]. injection Hj as ->.
      by rewrite filter_cons_False by (intros Hne; by apply Hne).
  - apply list_elem_of_fmap. exists note. split; [done|].
    by eapply list_elem_of_lookup_2.
  - rewrite handleUpdateNote_ids. destruct (App.selectedId (UI.app s)); [done|].
    by rewrite Hok.
Qed.

(** The editor after a render shows the selected note, when it did before
    and a kept key means a kept note. *)
Lemma render_editor_mirrors (before after : App.state) (ed : option Editor.state)
    (ls ls' : Storage) :
  mirrors {| UI.storage := ls; UI.app := before; UI.editor := ed |} →
  (∀ old new, selectedNote before = Some old → selectedNote after = Some new →
     Note.id old = Note.id new → old = new) →
  mirrors {| UI.storage := ls'; UI.app := after;
             UI.editor := render_editor before ed after |}.
Proof.
  unfold mirrors, render_editor. simpl. intros Hm Hkey.
  destruct (selectedNote after) as [new|]; [|done].
  destruct (selectedNote before) as [old|], ed as [e|]; try done.
  case_decide as Hid; [|done]. by rewrite <- (Hkey old new).
Qed.

Lemma step_mirrors (ev : UIEvent) (s s' : UI.session) :
  mirrors s → fresh ev s = true → ui_step ev s = Returns s' → mirrors s'.
Proof.
  intros Hm Hfresh Hstep. destruct s as [ls st ed].
  destruct (ui_step_cases _ _ _ Hstep)
    as [->|[(r0 & r1 & r2 & t0 & t1 & -> & ->)|[(i & note & j & n & -> & Hi & Hfind & ->)
       |[(i & -> & ->)|[(i & note & -> & Hi & ->)
       |(e & now & ed0 & note & -> & Hed & Hsel & [[Hsave ->]|(Ht & Hb & ->)])]]]]];
    simpl in *; try done.
  - apply (render_editor_mirrors _ _ _ ls); [done|].
    intros old new [Hold _]%selectedNote_Some Hnew Hid. exfalso.
    apply bool_decide_eq_true in Hfresh as [Hr0 _]. apply Hr0.
    unfold selectedNote, handleAddNote in Hnew. simpl in Hnew.
    rewrite find_cons, decide_True in Hnew by done. injection Hnew as <-.
    simpl in Hid. rewrite <- Hid. apply list_elem_of_fmap. eauto.
  - apply (render_editor_mirrors _ _ _ ls); [done|].
    intros old new Hold Hnew%selectedNote_filter Hid. destruct st as [notes sel].
    by apply (selectedNote_same_id notes sel _ old new Hold Hnew).
  - apply (render_editor_mirrors _ _ _ ls); [done|]. intros old new Hold Hnew _. simpl in Hold. congruence.
  - apply (render_editor_mirrors _ _ _ ls); [done|].
    intros old new Hold Hnew Hid. destruct st as [notes sel].
    by apply (selectedNote_same_id notes sel _ old new Hold Hnew).
  - unfold mirrors. simpl. destruct st as [notes sel]. simpl.
    by rewrite (selectedNote_update now _ note notes sel Hsel).
  - unfold mirrors. simpl. by rewrite Hsel.
Qed.

Lemma editor_step_nonempty (ev : EditorEvent) (st : Editor.state) :
  NoDup (Block.id <$> Editor.blocks st) → Editor.blocks st ≠ [] →
  Editor.blocks (editor_step ev st) ≠ [].
Proof.
  destruct st as [title blocks]. simpl. intros Hnd Hne.
  assert (Hpos : (0 < length blocks)%nat) by (destruct blocks; [done|simpl; lia]).
  intros Hnil. apply (f_equal length) in Hnil. simpl in Hnil. revert Hnil.
  destruct ev as [value|idx innerText|idx e r|idx clip s1 s2]; simpl; [lia|..];
    destruct (blocks !! idx) as [block|] eqn:Hi; simpl; try lia.
  - rewrite handleBlockInput_length. lia.
  - destruct (decide (key e = lit "Backspace")) as [Hkey|Hkey].
    + rewrite handleBlockKeyDown_Backspace by done.
      case_decide as Hrm; [|lia].
      rewrite (removeBlock_unique _ _ _ Hnd Hi), length_delete by eauto. lia.
    + pose proof (handleBlockKeyDown_length e idx block r blocks Hkey). lia.
  - unfold handleBlockPaste. rewrite !handleBlockInput_length. lia.
Qed.

Lemma editor_step_unique_ids (ev : EditorEvent) (st : Editor.state) :
  NoDup (Block.id <$> Editor.blocks st) →
  (∀ idx e r, ev = BlockKeyDown idx e r → r ∉ Block.id <$> Editor.blocks st) →
  NoDup (Block.id <$> Editor.blocks (editor_step ev st)).
Proof.
  destruct st as [title blocks]. simpl. intros Hnd Hfresh.
  destruct ev as [value|idx innerText|idx e r|idx clip s1 s2]; simpl; [done|..];
    destruct (blocks !! idx) as [block|] eqn:Hi; simpl; try done.
  - by rewrite handleBlockInput_ids.
  - apply handleBlockKeyDown_ids; [by eapply Hfresh|done].
  - unfold handleBlockPaste. by rewrite !handleBlockInput_ids.
Qed.

Lemma step_blocks_ok (ev : UIEvent) (s s' : UI.session) :
  mirrors s → blocks_ok (App.notes (UI.app s)) → fresh ev s = true →
  ui_step ev s = Returns s' → blocks_ok (App.notes (UI.app s')).
Proof.
  unfold blocks_ok. intros Hm Hok Hfresh Hstep.
  destruct (ui_step_cases _ _ _ Hstep)
    as [->|[(r0 & r1 & r2 & t0 & t1 & -> & ->)|[(i & note & j & n & -> & Hi & Hfind & ->)
       |[(i & -> & ->)|[(i & note & -> & Hi & ->)
       |(e & now & ed & note & -> & Hed & Hsel & [[Hsave ->]|(_ & _ & ->)])]]]]];
    simpl; try done.
  - simpl in Hfresh. apply bool_decide_eq_true in Hfresh as [_ Hr12].
    apply Forall_cons. split; [|done]. simpl. split; [done|].
    apply NoDup_cons. split; [by intros ->%list_elem_of_singleton|].
    apply NoDup_singleton.
  - apply Forall_forall. intros m [_ Hin]%list_elem_of_filter.
    by apply (proj1 (Forall_forall _ _) Hok).
  - unfold mirrors in Hm. rewrite Hsel, Hed in Hm. destruct Hm as [_ Hblocks].
    destruct (selectedNote_Some _ _ Hsel) as [Hin _].
    destruct (proj1 (Forall_forall _ _) Hok note Hin) as [Hne Hnd].
    rewrite <- Hblocks in Hne, Hnd.
    unfold handleUpdateNote. apply Forall_fmap, Forall_forall. intros m Hmin. simpl.
    case_decide; [|by apply (proj1 (Forall_forall _ _) Hok)]. simpl. split.
    + by apply editor_step_nonempty.
    + apply editor_step_unique_ids; [done|]. intros idx k r ->.
      simpl in Hfresh. rewrite Hed in Hfresh. by apply bool_decide_eq_true in Hfresh.
Qed.

Lemma step_persisted (ev : UIEvent) (s s' : UI.session) :
  persisted s → ui_step ev s = Returns s' → persisted s'.
Proof.
  unfold persisted. intros Hp Hstep.
  destruct (ui_step_cases _ _ _ Hstep)
    as [->|[(r0 & r1 & r2 & t0 & t1 & -> & ->)|[(i & note & j & n & -> & Hi & Hfind & ->)
       |[(i & -> & ->)|[(i & note & -> & Hi & ->)
       |(e & now & ed & note & -> & Hed & Hsel & [[Hsave ->]|(_ & _ & ->)])]]]]];
    simpl; try done; apply lookup_insert_eq.
Qed.

Lemma step_times_ok (ev : UIEvent) (s s' : UI.session) :
  times_ok (App.notes (UI.app s)) → timely ev s = true → ui_step ev s = Returns s' →
  times_ok (App.notes (UI.app s')).
Proof.
  unfold times_ok. intros Hok Htimely Hstep.
  destruct (ui_step_cases _ _ _ Hstep)
    as [->|[(r0 & r1 & r2 & t0 & t1 & -> & ->)|[(i & note & j & n & -> & Hi & Hfind & ->)
       |[(i & -> & ->)|[(i & note & -> & Hi & ->)
       |(e & now & ed & note & -> & Hed & Hsel & [[Hsave ->]|(_ & _ & ->)])]]]]];
    simpl; try done.
  - simpl in Htimely. apply bool_decide_eq_true in Htimely.
    apply Forall_cons. by split.
  - apply Forall_forall. intros m [_ Hin]%list_elem_of_filter.
    by apply (proj1 (Forall_forall _ _) Hok).
  - simpl in Htimely. rewrite Hsel in Htimely. apply bool_decide_eq_true in Htimely.
    unfold handleUpdateNote. apply Forall_fmap, Forall_forall. intros m Hmin. simpl.
    case_decide; [done|by apply (proj1 (Forall_forall _ _) Hok)].
Qed.

(** *** Runs *)

Lemma along_any (evs : list UIEvent) (s : UI.session) : along (λ _ _, true) evs s = true.
Proof.
  revert s. induction evs as [|ev evs IH]; intros s; [done|]. simpl.
  by destruct (ui_step ev s).
Qed.

Lemma selection_ok_selected (st : App.state) :
  selection_ok st → App.notes st ≠ [] → is_Some (selectedNote st).
Proof.
  unfold selection_ok. intros Hok Hne.
  destruct (App.selectedId st) as [id|] eqn:Hsel; [|done].
  apply list_elem_of_fmap in Hok as (n & -> & Hin).
  destruct (selectedNote st) as [m|] eqn:Hfind; [by eexists|].
  unfold selectedNote in Hfind. apply find_None in Hfind.
  destruct (proj1 (Forall_forall _ _) Hfind n Hin). by rewrite Hsel.
Qed.

(** X11. Note ids stay unique, and no event throws: from a state with
    unique note ids, every run of events in which [Math.random()] gives new
    ids ends in a state with unique note ids. *)
Theorem run_unique_ids (evs : list UIEvent) (s : UI.session) :
  unique_ids (UI.app s) → along fresh evs s = true →
  ∃ s', run evs s = Returns s' ∧ unique_ids (UI.app s').
Proof.
  apply (run_invariant (λ s, unique_ids (UI.app s)) fresh). apply step_unique_ids.
Qed.

(** X12. A note stays selected as long as there is one: from a state with
    unique ids in which the selected id is the id of a note (or nothing is
    selected and there is no note), every such run ends in a state of that
    kind, where [selectedNote] is a note unless the list is empty. *)
Theorem run_selection_ok (evs : list UIEvent) (s : UI.session) :
  unique_ids (UI.app s) → selection_ok (UI.app s) → along fresh evs s = true →
  ∃ s', run evs s = Returns s' ∧ selection_ok (UI.app s')
    ∧ (App.notes (UI.app s') ≠ [] → is_Some (selectedNote (UI.app s'))).
Proof.
  intros Hnd Hok Hfresh.
  destruct (run_invariant (λ s, unique_ids (UI.app s) ∧ selection_ok (UI.app s)) fresh)
    with (evs := evs) (s := s) as (s' & Hrun & _ & Hok'); [|done..|].
  - intros ev s0 s1 [Hnd0 Hok0] Hev Hstep. split.
    + by eapply step_unique_ids.
    + by eapply step_selection_ok.
  - exists s'. split_and!; [done..|]. by apply selection_ok_selected.
Qed.

(** X13. The editor shows the selected note: when it does at the start
    (and is absent when no note is selected), it does after every run with
    new ids; its title and blocks are those of the selected note in the
    list, so nothing typed is lost. *)
Theorem run_mirrors (evs : list UIEvent) (s : UI.session) :
  mirrors s → along fresh evs s = true →
  ∃ s', run evs s = Returns s' ∧ mirrors s'.
Proof. apply (run_invariant mirrors fresh). apply step_mirrors. Qed.

(** X14. Every note keeps at least one block, and unique block ids, along
    every run with new ids, when the editor shows the selected note at the
    start. *)
Theorem run_blocks_ok (evs : list UIEvent) (s : UI.session) :
  mirrors s → blocks_ok (App.notes (UI.app s)) → along fresh evs s = true →
  ∃ s', run evs s = Returns s' ∧ blocks_ok (App.notes (UI.app s')).
Proof.
  intros Hm Hok Hfresh.
  destruct (run_invariant (λ s, mirrors s ∧ blocks_ok (App.notes (UI.app s))) fresh)
    with (evs := evs) (s := s) as (s' & Hrun & _ & Hok'); [|done..|by exists s'].
  intros ev s0 s1 [Hm0 Hok0] Hev Hstep. split.
  - by eapply step_mirrors.
  - by eapply step_blocks_ok.
Qed.

Lemma mount_effect_returns (n : list Note.t) :
  mount_effect n = Returns {| App.notes := n; App.selectedId := Note.id <$> head n |}.
Proof.
  unfold mount_effect. destruct n as [|x l]; [done|].
  case_decide as Hlen; [done|]. simpl in Hlen. lia.
Qed.

Lemma boot_returns (n : list Note.t) (ls : Storage) :
  boot n ls
  = Returns {| UI.storage := saveNotes n (saveNotes [] ls);
               UI.app := {| App.notes := n; App.selectedId := Note.id <$> head n |};
               UI.editor := reset <$> head n |}.
Proof.
  unfold boot. rewrite mount_effect_returns. simpl. do 2 f_equal.
  unfold render_editor, selectedNote. destruct n as [|x l]; [done|]. simpl.
  by rewrite find_cons, decide_True.
Qed.

Lemma loadNotes_persisted (s : UI.session) :
  persisted s → loadNotes (UI.storage s) = Returns (JSON.of_notes (App.notes (UI.app s))).
Proof.
  intros Hp. rewrite (loadNotes_stored _ _ Hp).
  rewrite decide_False by apply stringify_not_empty.
  by rewrite JSON_facts.parse_stringify.
Qed.

(** X15. What is shown is what is stored. From a state whose notes are the
    stored text, after every run of events [loadNotes] returns the array of
    the notes of the state, whatever their contents; and a restart on that
    storage with these notes gives the same notes and leaves the storage as
    it is. *)
Theorem run_persisted (evs : list UIEvent) (s : UI.session) :
  persisted s →
  ∃ s', run evs s = Returns s'
    ∧ loadNotes (UI.storage s') = Returns (JSON.of_notes (App.notes (UI.app s')))
    ∧ ∃ s'', boot (App.notes (UI.app s')) (UI.storage s') = Returns s''
        ∧ App.notes (UI.app s'') = App.notes (UI.app s')
        ∧ UI.storage s'' = UI.storage s'.
Proof.
  intros Hp.
  destruct (run_invariant persisted (λ _ _, true)) with (evs := evs) (s := s)
    as (s' & Hrun & Hp'); [|done|apply along_any|].
  { intros ev s0 s1 Hp0 _. by apply step_persisted. }
  exists s'. split_and!; [done|by apply loadNotes_persisted|].
  eexists. split; [apply boot_returns|]. simpl. split; [done|].
  unfold saveNotes, setItem. rewrite insert_insert_eq. by apply insert_id.
Qed.

(** X16. No note is updated before it is created: when that holds at the
    start, it holds after every run in which the clock does not go back. *)
Theorem run_times_ok (evs : list UIEvent) (s : UI.session) :
  times_ok (App.notes (UI.app s)) → along timely evs s = true →
  ∃ s', run evs s = Returns s' ∧ times_ok (App.notes (UI.app s')).
Proof.
  apply (run_invariant (λ s, times_ok (App.notes (UI.app s))) timely).
  apply step_times_ok.
Qed.

(** X17. No event changes the creation time of a note. With unique ids,
    every note after an event has the id and the creation time of a note
    before it, or is the note that "New Note" has just made. *)
Theorem ui_step_keeps_created (ev : UIEvent) (s s' : UI.session) (n' : Note.t) :
  unique_ids (UI.app s) → ui_step ev s = Returns s' → n' ∈ App.notes (UI.app s') →
  (∃ n, n ∈ App.notes (UI.app s) ∧ Note.id n = Note.id n'
        ∧ Note.created n = Note.created n')
  ∨ (∃ r0 r1 r2 t0 t1, ev = ClickNewNote r0 r1 r2 t0 t1 ∧ n' = newNote r0 r1 r2 t0 t1).
Proof.
  unfold unique_ids. intros Hnd Hstep Hin.
  destruct (ui_step_cases _ _ _ Hstep)
    as [->|[(r0 & r1 & r2 & t0 & t1 & -> & ->)|[(i & note & j & n & -> & Hi & Hfind & ->)
       |[(i & -> & ->)|[(i & note & -> & Hi & ->)
       |(e & now & ed & note & -> & Hed & Hsel & [[Hsave ->]|(_ & _ & ->)])]]]]];
    simpl in Hin; try (left; by exists n').
  - apply elem_of_cons in Hin as [->|Hin]; [right; by exists r0, r1, r2, t0, t1|].
    left. by exists n'.
  - apply list_elem_of_filter in Hin as [_ Hin]. left. by exists n'.
  - unfold handleUpdateNote in Hin. apply list_elem_of_fmap in Hin as (m & -> & Hm).
    left. exists m. split; [done|]. case_decide as Hid; [|done]. simpl in *.
    destruct (selectedNote_Some _ _ Hsel) as [Hnote _].
    by rewrite (NoDup_fmap_elem_eq Note.id _ m note Hnd Hm Hnote Hid).
Qed.

(** X18. The start of the application never throws. It shows the loaded
    notes with the first one selected and in the editor (no editor when
    there is no note), and leaves the text of these notes in the storage,
    whatever the storage held. *)
Theorem boot_spec (n : list Note.t) (ls : Storage) :
  ∃ s, boot n ls = Returns s
    ∧ App.notes (UI.app s) = n
    ∧ selectedNote (UI.app s) = head n
    ∧ selection_ok (UI.app s) ∧ mirrors s ∧ persisted s.
Proof.
  eexists. split; [apply boot_returns|].
  unfold selection_ok, mirrors, persisted, selectedNote. simpl.
  split_and!; [done| | | |apply lookup_insert_eq]; destruct n as [|x l]; simpl;
    rewrite ?find_cons, ?decide_True by done; try done.
  apply list_elem_of_here.
Qed.

(** X19. A stored text that [JSON.parse] rejects does not survive the
    start: [loadNotes] gives the empty array, the application starts with
    no note and no editor, and the save effect puts the text of the empty
    array in its place. *)
Theorem boot_unreadable (ls : Storage) (raw : jsstring) (e : exn) :
  ls !! LS_KEY = Some raw → JSON.parse raw = Throws e →
  loadNotes ls = Returns (JSON.of_notes [])
  ∧ ∃ s, boot [] ls = Returns s
      ∧ UI.app s = initial ∧ UI.editor s = None
      ∧ UI.storage s !! LS_KEY = Some (lit "[]")
      ∧ UI.storage s !! LS_KEY ≠ Some raw.
Proof.
  intros Hraw Hparse. split.
  - rewrite (loadNotes_stored _ _ Hraw), Hparse. by case_decide.
  - eexists. split; [apply boot_returns|]. simpl. split_and!; [done..| |].
    + unfold saveNotes, setItem. by rewrite lookup_insert_eq.
    + unfold saveNotes, setItem. rewrite lookup_insert_eq. intros [= <-].
      revert Hparse. by vm_compute.
Qed.

(** ** The further properties at the example values *)

Lemma handleDeleteNote_of_note_witness :
  let note := example_note (lit "b") 1700000000001 in
  App.notes example_app !! 1%nat = Some note
  ∧ ∃ st', handleDeleteNote true (Note.id note) example_app = Returns st'
      ∧ (Note.id note ∉ Note.id <$> App.notes st').
Proof.
  intros note.
  assert (Hi : App.notes example_app !! 1%nat = Some note) by reflexivity.
  split; [exact Hi|].
  destruct (handleDeleteNote_of_note true example_app 1 note Hi) as (st' & Hdel & _ & Hyes).
  exists st'. split; [exact Hdel|]. exact (proj1 (Hyes eq_refl)).
Defined.

Lemma handleDeleteNote_selects_neighbour_witness :
  let note := example_note (lit "b") 1700000000001 in
  unique_ids example_app
  ∧ App.notes example_app !! 1%nat = Some note
  ∧ (1 < length (App.notes example_app))%nat
  ∧ ∃ m st', App.notes example_app !! 0%nat = Some m
      ∧ handleDeleteNote true (Note.id note) example_app = Returns st'
      ∧ selectedNote st' = Some m.
Proof.
  intros note.
  assert (Hnd : unique_ids example_app)
    by (apply (bool_decide_unpack _); vm_compute; exact I).
  assert (Hi : App.notes example_app !! 1%nat = Some note) by reflexivity.
  assert (Hlen : (1 < length (App.notes example_app))%nat) by (simpl; lia).
  split; [exact Hnd|]. split; [exact Hi|]. split; [exact Hlen|].
  destruct (handleDeleteNote_selects_neighbour example_app 1 note Hnd Hi Hlen)
    as (m & st' & Hm & Hdel & _ & Hsel & _).
  exists m, st'. repeat split; assumption.
Defined.



Lemma handleBlockKeyDown_focus_witness :
  let b := Block.mk (lit "b1") text [] in
  let e := example_key (lit "Backspace") in
  NoDup (Block.id <$> example_blocks)
  ∧ example_blocks !! 1%nat = Some b
  ∧ ∃ p, example_blocks !! 0%nat = Some p
      ∧ (handleBlockKeyDown e 1 b (lit "r") example_blocks).2 = Some (Block.id p)
      ∧ p ∈ (handleBlockKeyDown e 1 b (lit "r") example_blocks).1.
Proof.
  intros b e.
  assert (Hnd : NoDup (Block.id <$> example_blocks))
    by (apply (bool_decide_unpack _); vm_compute; exact I).
  assert (Hi : example_blocks !! 1%nat = Some b) by reflexivity.
  assert (Hlen : (1 < length example_blocks)%nat) by (simpl; lia).
  split; [exact Hnd|]. split; [exact Hi|].
  exact (proj2 (handleBlockKeyDown_focus e 1 b (lit "r") example_blocks Hnd Hi)
           eq_refl eq_refl Hlen).
Defined.

Lemma editor_step_types_witness :
  let ev := BlockKeyDown 1 (example_key (lit "/")) (lit "r") in
  let b' := Block.mk (lit "b1") heading [] in
  NoDup (Block.id <$> Editor.blocks example_editor)
  ∧ b' ∈ Editor.blocks (editor_step ev example_editor)
  ∧ ((∀ b, b ∈ Editor.blocks example_editor → Block.type b ≠ bulleted_list) →
     Block.type b' ≠ bulleted_list).
Proof.
  intros ev b'.
  assert (Hnd : NoDup (Block.id <$> Editor.blocks example_editor))
    by (apply (bool_decide_unpack _); vm_compute; exact I).
  assert (Hb' : b' ∈ Editor.blocks (editor_step ev example_editor))
    by (apply (bool_decide_unpack _); vm_compute; exact I).
  split; [exact Hnd|]. split; [exact Hb'|].
  exact (proj2 (editor_step_types ev example_editor b' Hnd Hb')).
Defined.

Lemma autosave_settles_witness :
  let note := example_note (lit "b") 1700000000001 in
  let updated := snapshot note (lit "Plan") example_blocks in
  App.notes example_app !! 1%nat = Some note
  ∧ autosave note (lit "Plan") example_blocks = Some updated
  ∧ ∃ note', handleUpdateNote 1700000000005 updated (App.notes example_app) !! 1%nat
             = Some note'
      ∧ autosave note' (lit "Plan") example_blocks = None.
Proof.
  intros note updated.
  assert (Hi : App.notes example_app !! 1%nat = Some note) by reflexivity.
  assert (Hsave : autosave note (lit "Plan") example_blocks = Some updated)
    by (vm_compute; reflexivity).
  split; [exact Hi|]. split; [exact Hsave|].
  destruct (autosave_settles 1700000000005 (App.notes example_app) 1 note (lit "Plan")
              example_blocks updated Hi Hsave) as (note' & Hn' & _ & _ & Hnone).
  exists note'. split; assumption.
Defined.

Lemma inner_html_lines_witness :
  let lines := [lit "one"; lit "<b>two</b>"; []] in
  let block := Block.mk (lit "b1") text (lit "one" ++ [10%N] ++ lit "<b>two</b>" ++ [10%N]) in
  Forall (λ l, 10%N ∉ l) lines
  ∧ Block.content block = join [10%N] lines
  ∧ inner_html block = lit "one<br/><b>two</b><br/>".
Proof.
  intros lines block.
  assert (Hlines : Forall (λ l, 10%N ∉ l) lines)
    by (apply (bool_decide_unpack _); vm_compute; exact I).
  assert (Hcontent : Block.content block = join [10%N] lines) by reflexivity.
  split; [exact Hlines|]. split; [exact Hcontent|].
  exact (proj1 (inner_html_lines block lines Hlines Hcontent)).
Defined.

Lemma run_unique_ids_witness :
  unique_ids (UI.app example_session)
  ∧ along fresh example_events example_session = true
  ∧ ∃ s', run example_events example_session = Returns s' ∧ unique_ids (UI.app s').
Proof.
  assert (Hnd : unique_ids (UI.app example_session))
    by (apply (bool_decide_unpack _); vm_compute; exact I).
  assert (Hfresh : along fresh example_events example_session = true)
    by (vm_compute; reflexivity).
  split; [exact Hnd|]. split; [exact Hfresh|].
  exact (run_unique_ids example_events example_session Hnd Hfresh).
Defined.

Lemma run_selection_ok_witness :
  unique_ids (UI.app example_session)
  ∧ selection_ok (UI.app example_session)
  ∧ along fresh example_events example_session = true
  ∧ ∃ s', run example_events example_session = Returns s' ∧ selection_ok (UI.app s').
Proof.
  assert (Hnd : unique_ids (UI.app example_session))
    by (apply (bool_decide_unpack _); vm_compute; exact I).
  assert (Hok : selection_ok (UI.app example_session))
    by (apply (bool_decide_unpack _); vm_compute; exact I).
  assert (Hfresh : along fresh example_events example_session = true)
    by (vm_compute; reflexivity).
  split; [exact Hnd|]. split; [exact Hok|]. split; [exact Hfresh|].
  destruct (run_selection_ok example_events example_session Hnd Hok Hfresh)
    as (s' & Hrun & Hok' & _).
  exists s'. split; assumption.
Defined.

Lemma run_mirrors_witness :
  mirrors example_session
  ∧ along fresh example_events example_session = true
  ∧ ∃ s', run example_events example_session = Returns s' ∧ mirrors s'.
Proof.
  assert (Hm : mirrors example_session) by (vm_compute; split; reflexivity).
  assert (Hfresh : along fresh example_events example_session = true)
    by (vm_compute; reflexivity).
  split; [exact Hm|]. split; [exact Hfresh|].
  exact (run_mirrors example_events example_session Hm Hfresh).
Defined.

Lemma run_blocks_ok_witness :
  mirrors example_session
  ∧ blocks_ok (App.notes (UI.app example_session))
  ∧ along fresh example_events example_session = true
  ∧ ∃ s', run example_events example_session = Returns s'
      ∧ blocks_ok (App.notes (UI.app s')).
Proof.
  assert (Hm : mirrors example_session) by (vm_compute; split; reflexivity).
  assert (Hok : blocks_ok (App.notes (UI.app example_session)))
    by (apply (bool_decide_unpack _); vm_compute; exact I).
  assert (Hfresh : along fresh example_events example_session = true)
    by (vm_compute; reflexivity).
  split; [exact Hm|]. split; [exact Hok|]. split; [exact Hfresh|].
  exact (run_blocks_ok example_events example_session Hm Hok Hfresh).
Defined.

Lemma run_persisted_witness :
  persisted example_session
  ∧ ∃ s', run example_events example_session = Returns s'
      ∧ loadNotes (UI.storage s') = Returns (JSON.of_notes (App.notes (UI.app s'))).
Proof.
  assert (Hp : persisted example_session) by apply lookup_insert_eq.
  split; [exact Hp|].
  destruct (run_persisted example_events example_session Hp) as (s' & Hrun & Hload & _).
  exists s'. split; assumption.
Defined.

Lemma run_times_ok_witness :
  times_ok (App.notes (UI.app example_session))
  ∧ along timely example_events example_session = true
  ∧ ∃ s', run example_events example_session = Returns s'
      ∧ times_ok (App.notes (UI.app s')).
Proof.
  assert (Hok : times_ok (App.notes (UI.app example_session)))
    by (apply (bool_decide_unpack _); vm_compute; exact I).
  assert (Htimely : along timely example_events example_session = true)
    by (vm_compute; reflexivity).
  split; [exact Hok|]. split; [exact Htimely|].
  exact (run_times_ok example_events example_session Hok Htimely).
Defined.

Lemma ui_step_keeps_created_witness :
  let ev := Edit (TitleChange (lit "Plan")) 1700000000005 in
  let note := example_note (lit "b") 1700000000001 in
  let n' := stamp 1700000000005 (snapshot note (lit "Plan") example_blocks) in
  let st' := {| App.notes := handleUpdateNote 1700000000005
                               (snapshot note (lit "Plan") example_blocks)
                               (App.notes example_app);
                App.selectedId := Some (lit "b") |} in
  let s' := {| UI.storage := save_effect st' (UI.storage example_session);
               UI.app := st';
               UI.editor := Some (editor_step (TitleChange (lit "Plan")) example_editor) |} in
  unique_ids (UI.app example_session)
  ∧ ui_step ev example_session = Returns s'
  ∧ n' ∈ App.notes (UI.app s')
  ∧ ((∃ n, n ∈ App.notes (UI.app example_session) ∧ Note.id n = Note.id n'
           ∧ Note.created n = Note.created n')
     ∨ (∃ r0 r1 r2 t0 t1, ev = ClickNewNote r0 r1 r2 t0 t1 ∧ n' = newNote r0 r1 r2 t0 t1)).
Proof.
  intros ev note n' st' s'.
  assert (Hnd : unique_ids (UI.app example_session))
    by (apply (bool_decide_unpack _); vm_compute; exact I).
  assert (Hstep : ui_step ev example_session = Returns s') by reflexivity.
  assert (Hin : n' ∈ App.notes (UI.app s'))
    by (apply (list_elem_of_lookup_2 _ 1%nat); reflexivity).
  split; [exact Hnd|]. split; [exact Hstep|]. split; [exact Hin|].
  exact (ui_step_keeps_created ev example_session s' n' Hnd Hstep Hin).
Defined.

Lemma boot_unreadable_witness :
  let ls : Storage := {[ LS_KEY := lit "[{" ]} in
  ls !! LS_KEY = Some (lit "[{")
  ∧ JSON.parse (lit "[{") = Throws SyntaxError
  ∧ loadNotes ls = Returns (JSON.of_notes [])
  ∧ ∃ s, boot [] ls = Returns s ∧ UI.storage s !! LS_KEY = Some (lit "[]").
Proof.
  intros ls.
  assert (Hraw : ls !! LS_KEY = Some (lit "[{")) by apply lookup_singleton_eq.
  assert (Hparse : JSON.parse (lit "[{") = Throws SyntaxError) by (vm_compute; reflexivity).
  split; [exact Hraw|]. split; [exact Hparse|].
  destruct (boot_unreadable ls (lit "[{") SyntaxError Hraw Hparse)
    as (Hload & s & Hboot & _ & _ & Hstored & _).
  split; [exact Hload|]. exists s. split; assumption.
Defined.
